(** * myLocationBase: the capture-and-persistence core of [src/App.js]

    A shallow embedding of the [App] component's asynchronous functions
    ([loadDarkMode], [onToggleSwitch], [getLocation], [createTable],
    [saveLocation], [loadLocations]) together with a model of the platform
    services they call (AsyncStorage, expo-location, expo-sqlite, console,
    Alert), and the properties of the specification proved or refuted on it. *)

Set Warnings "-inexact-float,-register-all".
From Stdlib Require Import ZArith String List Sorted Permutation PrimFloat Lia.
From Stdlib Require DecimalString DecimalZ DecimalPos.
From stdpp Require Import gmap strings list.
Import ListNotations.

Local Open Scope string_scope.
Local Open Scope Z_scope.

(** * JavaScript values *)

(** A thrown value.  The platform services reject with [Error] objects, which
    carry a [name] and a [message]. *)
Record Error := mkError { name : string; message : string }.

(** The values [JSON.parse] can produce, and [undefined]. *)
Inductive JSValue :=
| JUndefined
| JNull
| JBool (b : bool)
| JNumber (x : float)
| JString (s : string)
| JArray (l : list JSValue)
| JObject (l : list (string * JSValue)).

(** ECMAScript [ToBoolean]: what [!v] and [if (v)] look at. *)
Definition ToBoolean (v : JSValue) : bool :=
  match v with
  | JUndefined | JNull => false
  | JBool b => b
  | JNumber x => negb (PrimFloat.eqb x 0%float || PrimFloat.is_nan x)
  | JString s => negb (String.eqb s "")
  | JArray _ | JObject _ => true
  end.

(** [String(error)], i.e. [Error.prototype.toString]. *)
Definition Error_toString (e : Error) : string :=
  if String.eqb (message e) "" then name e
  else if String.eqb (name e) "" then message e
  else name e ++ ": " ++ message e.

(** The result of settling a promise, or of completing a synchronous call:
    rejected / thrown ([inl]) or fulfilled / returned ([inr]). *)
Definition Outcome (X : Type) : Type := (Error + X)%type.

(** * The record store: [locations.db]

    [CREATE TABLE IF NOT EXISTS locations
       (id INTEGER PRIMARY KEY AUTOINCREMENT, latitude REAL, longitude REAL)] *)

(** A row, as JavaScript reads it: the rowid, and in each REAL column a
    number or [null]. *)
Record Row := mkRow { id : Z; latitude : option float; longitude : option float }.

(** What a REAL column keeps of the double bound to it: NaN is stored as
    NULL; a zero of either sign is read back as [+0] (a real that is an
    integer is stored as that integer); every other double, the infinities
    included, is read back as it was given. *)
Definition sql_real (x : float) : option float :=
  if PrimFloat.is_nan x then None
  else if PrimFloat.eqb 0 x then Some 0%float
  else Some x.

(** A table is the rows it holds, listed here in no order of their own
    (the engine keeps them in a b-tree by rowid, see [table_scan]), and the
    counter that AUTOINCREMENT keeps for it in [sqlite_sequence]. *)
Record Table := mkTable { rows : list Row; sequence : Z }.

(** The database file: its tables by name, and, while a transaction is
    open, the snapshot that ROLLBACK restores. *)
Record Database := mkDatabase {
  tables : gmap string Table;
  txn : option (gmap string Table)
}.

Definition SQLiteError (msg : string) : Error :=
  {| name := "Error"; message := msg |}.

Definition max_rowid (rs : list Row) : Z := foldr (fun r m => Z.max (id r) m) 0 rs.

(** The largest rowid, 2^63 - 1: AUTOINCREMENT refuses to go past it. *)
Definition MAX_ROWID : Z := 9223372036854775807.

(** [BEGIN] *)
Definition sql_begin (d : Database) : Outcome unit * Database :=
  match txn d with
  | Some _ => (inl (SQLiteError "cannot start a transaction within a transaction"), d)
  | None => (inr tt, {| tables := tables d; txn := Some (tables d) |})
  end.

(** [COMMIT] *)
Definition sql_commit (d : Database) : Outcome unit * Database :=
  match txn d with
  | None => (inl (SQLiteError "cannot commit - no transaction is active"), d)
  | Some _ => (inr tt, {| tables := tables d; txn := None |})
  end.

(** [ROLLBACK] *)
Definition sql_rollback (d : Database) : Outcome unit * Database :=
  match txn d with
  | None => (inl (SQLiteError "cannot rollback - no transaction is active"), d)
  | Some snapshot => (inr tt, {| tables := snapshot; txn := None |})
  end.

(** What the engine does by itself to the open transaction when a statement
    fails with SQLITE_FULL, SQLITE_IOERR and the like: it rolls it back, so
    that a ROLLBACK issued afterwards finds no transaction. *)
Definition sql_abort (d : Database) : Database :=
  match txn d with
  | None => d
  | Some snapshot => {| tables := snapshot; txn := None |}
  end.

(** [CREATE TABLE IF NOT EXISTS tbl (id INTEGER PRIMARY KEY AUTOINCREMENT,
    latitude REAL, longitude REAL)] *)
Definition sql_create_table_if_not_exists (tbl : string) (d : Database)
  : Outcome unit * Database :=
  match tables d !! tbl with
  | Some _ => (inr tt, d)
  | None => (inr tt, {| tables := <[tbl := {| rows := []; sequence := 0 |}]> (tables d);
                        txn := txn d |})
  end.

(** What [runSync] returns. *)
Record RunResult := mkRunResult { lastInsertRowId : Z; changes : Z }.

(** AUTOINCREMENT: the largest rowid the table has ever held, and the table
    with one more row under the next rowid. *)
Definition last_rowid (t : Table) : Z := Z.max (sequence t) (max_rowid (rows t)).

Definition table_insert (t : Table) (lat lon : float) : Table :=
  {| rows := rows t ++ [ {| id := last_rowid t + 1;
                            latitude := sql_real lat; longitude := sql_real lon |} ];
     sequence := last_rowid t + 1 |}.

(** [INSERT INTO tbl (latitude, longitude) values (?, ?)] with the two
    parameters bound.  When the rowids are used up the statement fails with
    SQLITE_FULL, and the engine rolls the open transaction back. *)
Definition sql_insert (tbl : string) (lat lon : float) (d : Database)
  : Outcome RunResult * Database :=
  match tables d !! tbl with
  | None => (inl (SQLiteError ("no such table: " ++ tbl)), d)
  | Some t =>
      if MAX_ROWID <=? last_rowid t
      then (inl (SQLiteError "database or disk is full"), sql_abort d)
      else
        (inr {| lastInsertRowId := last_rowid t + 1; changes := 1 |},
         {| tables := <[tbl := table_insert t lat lon]> (tables d); txn := txn d |})
  end.

(** A [SELECT * FROM tbl] query, with its ORDER BY clause when it has one. *)
Inductive Column := col_id | col_latitude | col_longitude.
Inductive Direction := ASC | DESC.
Record SelectAll := mkSelectAll {
  from_table : string;
  order_by : option (Column * Direction)
}.

(** The order of the values of a REAL column: NULL first, then the
    numbers. *)
Definition real_leb (x y : option float) : bool :=
  match x, y with
  | None, _ => true
  | Some _, None => false
  | Some a, Some b => PrimFloat.leb a b
  end.

Definition row_leb (c : Column) (r1 r2 : Row) : bool :=
  match c with
  | col_id => id r1 <=? id r2
  | col_latitude => real_leb (latitude r1) (latitude r2)
  | col_longitude => real_leb (longitude r1) (longitude r2)
  end.

Fixpoint insert_by (leb : Row -> Row -> bool) (r : Row) (l : list Row) : list Row :=
  match l with
  | [] => [r]
  | x :: l' => if leb r x then r :: l else x :: insert_by leb r l'
  end.

Definition sort_rows (term : Column * Direction) (l : list Row) : list Row :=
  match term with
  | (c, ASC) => foldr (insert_by (row_leb c)) [] l
  | (c, DESC) => foldr (insert_by (fun r1 r2 => row_leb c r2 r1)) [] l
  end.

(** A walk of the table's b-tree: the rows by ascending rowid. *)
Definition table_scan (t : Table) : list Row := sort_rows (col_id, ASC) (rows t).

(** Without ORDER BY the engine walks the table's b-tree, which gives the
    rows by rowid; with it, the rows of that walk are sorted as asked. *)
Definition sql_select_all (q : SelectAll) (d : Database) : Outcome (list Row) * Database :=
  match tables d !! from_table q with
  | None => (inl (SQLiteError ("no such table: " ++ from_table q)), d)
  | Some t =>
      (inr (match order_by q with
            | None => table_scan t
            | Some term => sort_rows term (table_scan t)
            end), d)
  end.

(** * The application's world *)

(** What [console.log] and [console.error] were given after the message. *)
Inductive LogArg :=
| LString (s : string)
| LBool (b : bool)
| LError (e : Error)
| LNumber (x : float)
| LId (i : option Z)
| LRows (l : list Row).

Inductive ConsoleEntry :=
| console_log_entry (msg : string) (args : list LogArg)
| console_error_entry (msg : string) (args : list LogArg).

(** An [Alert.alert(title, message, ...)] shown to the user. *)
Record Alert := mkAlert { alert_title : string; alert_message : string }.

(** [location.coords] of a position reading. *)
Record Coords := mkCoords { coords_latitude : float; coords_longitude : float }.

(** [assets/colors.json] and [assets/colorsDark.json]. *)
Inductive Colors := myColors | myColorsDark.

(** The component's state ([useState]), the two durable stores, and what the
    user and the console have been shown. *)
Record World := mkWorld {
  isSwitchOn : JSValue;
  isLoading : bool;
  locations : option (list Row);
  theme : Colors;
  storage : gmap string string;
  db : Database;
  console : list ConsoleEntry;
  alerts : list Alert
}.

Definition with_isSwitchOn (v : JSValue) (w : World) : World :=
  let 'mkWorld _ ld loc th st d con al := w in mkWorld v ld loc th st d con al.
Definition with_isLoading (b : bool) (w : World) : World :=
  let 'mkWorld sw _ loc th st d con al := w in mkWorld sw b loc th st d con al.
Definition with_locations (l : option (list Row)) (w : World) : World :=
  let 'mkWorld sw ld _ th st d con al := w in mkWorld sw ld l th st d con al.
Definition with_theme (c : Colors) (w : World) : World :=
  let 'mkWorld sw ld loc _ st d con al := w in mkWorld sw ld loc c st d con al.
Definition with_storage (s : gmap string string) (w : World) : World :=
  let 'mkWorld sw ld loc th _ d con al := w in mkWorld sw ld loc th s d con al.
Definition with_db (d : Database) (w : World) : World :=
  let 'mkWorld sw ld loc th st _ con al := w in mkWorld sw ld loc th st d con al.
Definition with_console (c : list ConsoleEntry) (w : World) : World :=
  let 'mkWorld sw ld loc th st d _ al := w in mkWorld sw ld loc th st d c al.
Definition with_alerts (a : list Alert) (w : World) : World :=
  let 'mkWorld sw ld loc th st d con _ := w in mkWorld sw ld loc th st d con a.

(** The world of a freshly installed application at mount: the [useState]
    initial values, nothing stored, an empty database file. *)
Definition initial_World : World :=
  {| isSwitchOn := JBool false; isLoading := false; locations := None; theme := myColors;
     storage := ∅; db := {| tables := ∅; txn := None |}; console := []; alerts := [] |}.

(** A new session over the same device: component state is re-initialised,
    the durable stores are kept. *)
Definition fresh_session (w : World) : World :=
  {| isSwitchOn := JBool false; isLoading := false; locations := None; theme := myColors;
     storage := storage w; db := db w; console := []; alerts := [] |}.

(** * Asynchronous programs

    An [async function] is a tree of calls into the platform.  A [Sync] call
    completes before anything else can run; an [Await] call is a suspension
    point: the function resumes with the call's outcome, and other pending
    work may run in between. *)
Inductive Prog (A : Type) : Type :=
| Ret (a : A)
| Throw (e : Error)
| Sync {X : Type} (op : World -> Outcome X * World) (k : Outcome X -> Prog A)
| Await {X : Type} (op : World -> Outcome X * World) (k : Outcome X -> Prog A).
Arguments Ret {A} a.
Arguments Throw {A} e.
Arguments Sync {A X} op k.
Arguments Await {A X} op k.

Fixpoint bind {A B : Type} (p : Prog A) (f : A -> Prog B) : Prog B :=
  match p with
  | Ret a => f a
  | Throw e => Throw e
  | Sync op k => Sync op (fun o => bind (k o) f)
  | Await op k => Await op (fun o => bind (k o) f)
  end.

(** [try { p } catch (error) { h error }] *)
Fixpoint try_catch {A : Type} (p : Prog A) (h : Error -> Prog A) : Prog A :=
  match p with
  | Ret a => Ret a
  | Throw e => h e
  | Sync op k => Sync op (fun o => try_catch (k o) h)
  | Await op k => Await op (fun o => try_catch (k o) h)
  end.

(** [try { p } finally { fin }] *)
Fixpoint try_finally {A : Type} (p : Prog A) (fin : Prog unit) : Prog A :=
  match p with
  | Ret a => bind fin (fun _ => Ret a)
  | Throw e => bind fin (fun _ => Throw e)
  | Sync op k => Sync op (fun o => try_finally (k o) fin)
  | Await op k => Await op (fun o => try_finally (k o) fin)
  end.

Definition settle {X : Type} (o : Outcome X) : Prog X :=
  match o with
  | inl e => Throw e
  | inr x => Ret x
  end.

(** A synchronous platform call, and [await] of an asynchronous one. *)
Definition call {X : Type} (op : World -> Outcome X * World) : Prog X := Sync op settle.
Definition await {X : Type} (op : World -> Outcome X * World) : Prog X := Await op settle.

(** A state update that cannot fail. *)
Definition act (f : World -> World) : Prog unit := call (fun w => (inr tt, f w)).

Declare Scope prog_scope.
Delimit Scope prog_scope with prog.
Notation "'let*' x ':=' p 'in' q" := (bind p (fun x => q))
  (at level 10, x name, p at level 100, q at level 200) : prog_scope.
Notation "p ';;' q" := (bind p (fun _ => q))
  (at level 100, q at level 200, right associativity) : prog_scope.
Local Open Scope prog_scope.

(** Running one program to completion with nothing else interleaved. *)
Fixpoint run {A : Type} (p : Prog A) (w : World) : Outcome A * World :=
  match p with
  | Ret a => (inr a, w)
  | Throw e => (inl e, w)
  | Sync op k => let (o, w') := op w in run (k o) w'
  | Await op k => let (o, w') := op w in run (k o) w'
  end.

(** Up to the next suspension point: the synchronous calls of a program run
    one after the other without interruption. *)
Fixpoint advance {A : Type} (p : Prog A) (w : World) : Prog A * World :=
  match p with
  | Sync op k => let (o, w') := op w in advance (k o) w'
  | _ => (p, w)
  end.

(** The awaited call completes and the program continues to its next
    suspension point (or to its end). *)
Definition resume {A : Type} (p : Prog A) (w : World) : Prog A * World :=
  match p with
  | Await op k => let (o, w') := op w in advance (k o) w'
  | _ => (p, w)
  end.

(** * Platform services *)

Definition console_log (msg : string) (args : list LogArg) : Prog unit :=
  act (fun w => with_console (console w ++ [console_log_entry msg args]) w).
Definition console_error (msg : string) (args : list LogArg) : Prog unit :=
  act (fun w => with_console (console w ++ [console_error_entry msg args]) w).
Definition Alert_alert (title msg : string) : Prog unit :=
  act (fun w => with_alerts (alerts w ++ [ {| alert_title := title; alert_message := msg |} ]) w).

Definition setIsSwitchOn (v : JSValue) : Prog unit := act (with_isSwitchOn v).
Definition setIsLoading (b : bool) : Prog unit := act (with_isLoading b).
Definition setLocations (l : list Row) : Prog unit := act (with_locations (Some l)).

(** A call into AsyncStorage either fails for a reason of the platform's
    own (the [fault]), leaving what is stored as it was, or does its work. *)
Definition native {X S : Type} (get : World -> S) (put : S -> World -> World)
    (fault : option Error) (f : S -> Outcome X * S) (w : World) : Outcome X * World :=
  match fault with
  | Some e => (inl e, w)
  | None => let (o, s) := f (get w) in (o, put s w)
  end.

(** ** AsyncStorage *)
Definition AsyncStorage_getItem (fault : option Error) (key : string) : Prog (option string) :=
  await (native storage with_storage fault (fun m => (inr (m !! key), m))).
Definition AsyncStorage_setItem (fault : option Error) (key value : string) : Prog unit :=
  await (native storage with_storage fault (fun m => (inr tt, <[key := value]> m))).

(** ** JSON *)
Definition JSON_stringify (b : bool) : string := if b then "true" else "false".

(** [JSON.parse]: the two texts [JSON.stringify] produces for a boolean are
    parsed here; every other text is left to the engine's parser,
    [parse_other], which returns a value or throws a SyntaxError. *)
Definition JSON_parse (parse_other : string -> Outcome JSValue) (text : string)
  : Outcome JSValue :=
  if String.eqb text "true" then inr (JBool true)
  else if String.eqb text "false" then inr (JBool false)
  else parse_other text.

(** ** expo-location *)
Definition Location_requestForegroundPermissionsAsync (response : Outcome string)
  : Prog string :=
  await (fun w => (response, w)).
Definition Location_getCurrentPositionAsync (reading : Outcome Coords) : Prog Coords :=
  await (fun w => (reading, w)).

(** ** expo-sqlite *)

(** A failure of the platform's own inside a statement: the error the
    statement is rejected with, and whether the engine has rolled the open
    transaction back by itself ([sql_abort]), as it does on a full disk or
    an I/O error and does not on a busy or locked database. *)
Record Fault := mkFault { fault_error : Error; fault_aborts : bool }.

(** A statement either meets a fault or is executed. *)
Definition sql_statement {X : Type} (fault : option Fault)
    (stmt : Database -> Outcome X * Database) (w : World) : Outcome X * World :=
  match fault with
  | Some flt =>
      (inl (fault_error flt), if fault_aborts flt then with_db (sql_abort (db w)) w else w)
  | None => let (o, d) := stmt (db w) in (o, with_db d w)
  end.

Definition db_execAsync (fault : option Fault) (stmt : Database -> Outcome unit * Database)
  : Prog unit :=
  await (sql_statement fault stmt).
Definition db_execSync (fault : option Fault) (stmt : Database -> Outcome unit * Database)
  : Prog unit :=
  call (sql_statement fault stmt).
Definition db_runSync (fault : option Fault) (stmt : Database -> Outcome RunResult * Database)
  : Prog RunResult :=
  call (sql_statement fault stmt).
Definition db_getAllSync (fault : option Fault) (q : SelectAll) : Prog (list Row) :=
  call (sql_statement fault (sql_select_all q)).

(** The platform faults one [withTransactionAsync] call meets: at BEGIN, in
    the statement its task runs, at COMMIT.  A ROLLBACK meets none: it fails
    only when no transaction is open. *)
Record TxnFaults := mkTxnFaults {
  begin_fault : option Fault;
  task_fault : option Fault;
  commit_fault : option Fault
}.
Definition no_faults : TxnFaults :=
  {| begin_fault := None; task_fault := None; commit_fault := None |}.

(** [db.withTransactionAsync(task)]:
    [try { BEGIN; await task(); COMMIT } catch (e) { ROLLBACK; throw e }].
    What the task assigns to its caller's local variable is passed on as its
    value. *)
Definition db_withTransactionAsync {A : Type} (f : TxnFaults) (task : Prog A) : Prog A :=
  try_catch
    (db_execAsync (begin_fault f) sql_begin ;;
     let* a := task in
     db_execAsync (commit_fault f) sql_commit ;;
     Ret a)
    (fun e => db_execAsync None sql_rollback ;; Throw e).

(** * The component's functions ([src/App.js])

    A function of the component closes over the state values of the render
    that created it; they are its first arguments here ([isSwitchOn],
    [isLoading]).  The remaining arguments before the source's own say what
    the platform answers during the call. *)

Section App.

(** The engine's [JSON.parse] on texts other than [true] and [false]. *)
Variable parse_other : string -> Outcome JSValue.

Definition loadDarkMode (get_fault : option Error) : Prog JSValue :=
  try_catch
    (let* isDarkMode := AsyncStorage_getItem get_fault "darkMode" in
     match isDarkMode with
     | Some text =>
         let* parsed := settle (JSON_parse parse_other text) in
         setIsSwitchOn parsed
     | None => Ret tt
     end)
    (fun error => console_error "Failed to load dark mode." []) ;;
  Ret JUndefined.

End App.

Definition onToggleSwitch (isSwitchOn : JSValue) (set_fault : option Error) : Prog JSValue :=
  let newValue := negb (ToBoolean isSwitchOn) in
  setIsSwitchOn (JBool newValue) ;;
  try_catch
    (AsyncStorage_setItem set_fault "darkMode" (JSON_stringify newValue))
    (fun error => console_error "Failed to save dark mode." []) ;;
  Ret JUndefined.

Definition createTable (f : TxnFaults) : Prog JSValue :=
  try_catch
    (db_withTransactionAsync f
       (db_execSync (task_fault f) (sql_create_table_if_not_exists "locations")) ;;
     console_log "Tabela de localizações criada ou já existe!" [])
    (fun error =>
       console_error "Erro ao criar tabela:" [LError error] ;;
       Throw error) ;;
  Ret JUndefined.

Definition saveLocation (f : TxnFaults) (latitude longitude : float) : Prog JSValue :=
  try_catch
    (let* insertedId :=
       db_withTransactionAsync f
         (let* result := db_runSync (task_fault f) (sql_insert "locations" latitude longitude) in
          Ret (lastInsertRowId result)) in
     console_log "Localização salva, ID:" [LId (Some insertedId)])
    (fun error =>
       console_error "Erro ao salvar localização:" [LError error] ;;
       Throw error) ;;
  Ret JUndefined.

(** ['SELECT * FROM locations;'] *)
Definition loadLocations_query : SelectAll :=
  {| from_table := "locations"; order_by := None |}.

Definition loadLocations (f : TxnFaults) : Prog JSValue :=
  try_catch
    (let* fetchedData :=
       db_withTransactionAsync f (db_getAllSync (task_fault f) loadLocations_query) in
     console_log "Localizações carregadas:" [LRows fetchedData] ;;
     setLocations fetchedData)
    (fun error =>
       console_error "Erro ao carregar localizações:" [LError error] ;;
       Throw error) ;;
  Ret JUndefined.

(** What the platform answers during one [getLocation] call. *)
Record CaptureEnv := mkCaptureEnv {
  permission : Outcome string;     (* [status] of the permission response *)
  position : Outcome Coords;       (* [location.coords] of the reading *)
  save_faults : TxnFaults;
  load_faults : TxnFaults
}.

(** [error.message || error] inside the template literal. *)
Definition error_details (error : Error) : string :=
  if String.eqb (message error) "" then Error_toString error else message error.

Definition getLocation (isLoading : bool) (env : CaptureEnv) : Prog JSValue :=
  setIsLoading true ;;
  console_log "Iniciando captura de localização..." [] ;;
  try_finally
    (try_catch
       (console_log "Solicitando permissão de localização..." [] ;;
        let* status := Location_requestForegroundPermissionsAsync (permission env) in
        console_log "Status da permissão:" [LString status] ;;
        if negb (String.eqb status "granted") then
          Alert_alert "Permissão de Localização"
            "Permissão para acessar a localização foi negada. Por favor, habilite-a nas configurações do seu dispositivo."
        else
          console_log "Obtendo posição atual..." [] ;;
          let* location := Location_getCurrentPositionAsync (position env) in
          console_log "Localização obtida:"
            [LNumber (coords_latitude location); LNumber (coords_longitude location)] ;;
          let latitude := coords_latitude location in
          let longitude := coords_longitude location in
          console_log "Latitude: ${latitude}, Longitude: ${longitude}"
            [LNumber latitude; LNumber longitude] ;;
          console_log "Salvando localização..." [] ;;
          saveLocation (save_faults env) latitude longitude ;;
          console_log "Localização salva no DB." [] ;;
          console_log "Recarregando localizações da lista..." [] ;;
          loadLocations (load_faults env) ;;
          console_log "Localizações recarregadas." [])
       (fun error =>
          console_error "Erro geral na função getLocation:" [LError error] ;;
          Alert_alert "Erro"
            ("Não foi possível capturar a localização. Detalhes: "
               ++ error_details error ++ ". Tente novamente.")))
    (setIsLoading false ;;
     console_log "Finalizando captura de localização. isLoading:" [LBool isLoading]) ;;
  Ret JUndefined.

(** The effect on [isSwitchOn]: [setTheme] with the dark or the light
    colors. *)
Definition themeEffect (w : World) : World :=
  if ToBoolean (isSwitchOn w) then with_theme myColorsDark w else with_theme myColors w.

(** * The event loop

    The pending [getLocation] calls, each suspended at an [await].  The user
    pressing the button calls the [getLocation] of the latest render; the
    completion of an awaited platform call resumes the call that waits for
    it.  Each call's synchronous stretches run uninterrupted. *)
Record Loop := mkLoop { world : World; pending : list (Prog JSValue) }.

Inductive Event :=
| onPress (env : CaptureEnv)
| completes (i : nat).

Definition loop_step (s : Loop) (ev : Event) : Loop :=
  match ev with
  | onPress env =>
      let (p, w) := advance (getLocation (isLoading (world s)) env) (world s) in
      {| world := w; pending := pending s ++ [p] |}
  | completes i =>
      match pending s !! i with
      | Some p => let (p', w) := resume p (world s) in
                  {| world := w; pending := <[i := p']> (pending s) |}
      | None => s
      end
  end.

Definition loop_run (s : Loop) (evs : list Event) : Loop := foldl loop_step s evs.

(** A call is over when nothing of it is left to run. *)
Definition finished {A : Type} (p : Prog A) : bool :=
  match p with
  | Ret _ | Throw _ => true
  | _ => false
  end.

(** The rows of the [locations] table, as the store holds them: by
    ascending rowid. *)
Definition stored_rows (d : Database) : option (list Row) :=
  table_scan <$> (tables d !! "locations").

(** The tables as of the last commit: what the store holds once an open
    transaction, if there is one, is rolled back. *)
Definition committed (d : Database) : gmap string Table :=
  match txn d with
  | Some snapshot => snapshot
  | None => tables d
  end.

(** Where a capture fails, if it does: the step of [getLocation] that does
    not go through when the platform answers as [env] says and the store is
    as in [w]. *)
Inductive FailurePoint := AtPermission | AtLocation | AtInsert | AtReload.

Definition capture_failure (env : CaptureEnv) (w : World) : option FailurePoint :=
  match permission env with
  | inl _ => Some AtPermission
  | inr status =>
      if negb (String.eqb status "granted") then Some AtPermission
      else
        match position env with
        | inl _ => Some AtLocation
        | inr c =>
            match run (saveLocation (save_faults env) (coords_latitude c) (coords_longitude c)) w with
            | (inl _, _) => Some AtInsert
            | (inr _, ws) =>
                match run (loadLocations (load_faults env)) ws with
                | (inl _, _) => Some AtReload
                | (inr _, _) => None
                end
            end
        end
  end.

(** The same program called [n] times in a row: the outcomes, in order, and
    the world after the last call. *)
Fixpoint call_times {A : Type} (p : Prog A) (n : nat) (w : World) : list (Outcome A) * World :=
  match n with
  | O => ([], w)
  | S n' =>
      let (o, w1) := run p w in
      let (os, w2) := call_times p n' w1 in
      (o :: os, w2)
  end.

(** One call of a function of the component, run to its end, with what the
    platform answers to it. *)
Inductive Operation :=
| OpCreateTable (f : TxnFaults)
| OpSaveLocation (f : TxnFaults) (latitude longitude : float)
| OpLoadLocations (f : TxnFaults)
| OpGetLocation (env : CaptureEnv)
| OpLoadDarkMode (parse_other : string -> Outcome JSValue) (get_fault : option Error)
| OpToggleSwitch (set_fault : option Error).

Definition operate (w : World) (op : Operation) : World :=
  match op with
  | OpCreateTable f => snd (run (createTable f) w)
  | OpSaveLocation f lat lon => snd (run (saveLocation f lat lon) w)
  | OpLoadLocations f => snd (run (loadLocations f) w)
  | OpGetLocation env => snd (run (getLocation (isLoading w) env) w)
  | OpLoadDarkMode parse_other get_fault => snd (run (loadDarkMode parse_other get_fault) w)
  | OpToggleSwitch set_fault => snd (run (onToggleSwitch (isSwitchOn w) set_fault) w)
  end.

(** The worlds the application can be in between two calls, from
    installation on. *)
Definition reachable (w : World) : Prop :=
  exists ops : list Operation, w = foldl operate initial_World ops.

(** Ascending by [id]. *)
Definition ascending (l : list Row) : Prop :=
  StronglySorted (fun r1 r2 => id r1 < id r2) l.

(** The ids [1; 2; ...; n]. *)
Definition ids_upto (n : nat) : list Z := map Z.of_nat (List.seq 1 n).

(** What holds of the store between two calls: no transaction is left
    open, and the [locations] table, once created, holds the ids 1, 2, ...
    in this order, its AUTOINCREMENT counter being the last of them. *)
Definition store_ok (d : Database) : Prop :=
  txn d = None /\
  forall t, tables d !! "locations" = Some t ->
    map id (rows t) = ids_upto (length (rows t)) /\
    sequence t = Z.of_nat (length (rows t)).

(** The console line [getLocation] writes before it calls [loadLocations]. *)
Definition reload_marker : ConsoleEntry :=
  console_log_entry "Recarregando localizações da lista..." [].

(** ** Scenarios *)

(** The application after its first start: the table has been created. *)
Definition installed_World : World := snd (run (createTable no_faults) initial_World).

(** The platform grants the permission, reads the position [(lat, lon)] and
    meets no fault. *)
Definition granted_at (lat lon : float) : CaptureEnv :=
  {| permission := inr "granted";
     position := inr {| coords_latitude := lat; coords_longitude := lon |};
     save_faults := no_faults;
     load_faults := no_faults |}.

Definition io_error : Error := {| name := "Error"; message := "disk I/O error" |}.

(** A statement meets a disk I/O error: the engine rolls the open
    transaction back. *)
Definition io_fault : Fault := {| fault_error := io_error; fault_aborts := true |}.

(** A statement finds the database locked: the open transaction stays. *)
Definition busy_error : Error := SQLiteError "database is locked".
Definition busy_fault : Fault := {| fault_error := busy_error; fault_aborts := false |}.

(** As [granted_at], but the SELECT of the reload meets an I/O error. *)
Definition reload_fails_at (lat lon : float) : CaptureEnv :=
  {| permission := inr "granted";
     position := inr {| coords_latitude := lat; coords_longitude := lon |};
     save_faults := no_faults;
     load_faults := {| begin_fault := None; task_fault := Some io_fault; commit_fault := None |} |}.

(** The user denies the permission. *)
Definition denied : CaptureEnv :=
  {| permission := inr "denied";
     position := inr {| coords_latitude := 0; coords_longitude := 0 |};
     save_faults := no_faults;
     load_faults := no_faults |}.

(** [n] completions in a row of the calls a program awaits. *)
Fixpoint resumes {A : Type} (n : nat) (p : Prog A) (w : World) : Prog A * World :=
  match n with
  | O => (p, w)
  | S n' => let (p', w') := resume p w in resumes n' p' w'
  end.

(** The event loop with no call pending. *)
Definition idle (w : World) : Loop := {| world := w; pending := [] |}.

(** Two presses in a row and then the platform calls completing in this
    order: both calls reach their BEGIN; the first one's BEGIN and INSERT
    go through; the second one's BEGIN is refused and its ROLLBACK is
    executed; then the first one's COMMIT and ROLLBACK. *)
Definition colliding_captures : list Event :=
  [ onPress (granted_at 1 2); onPress (granted_at 3 4);
    completes 0; completes 0; completes 1; completes 1;
    completes 0; completes 1; completes 1; completes 0; completes 0 ].



(** What [getLocation] writes on the console before its first [await]. *)
Definition start_entries : list ConsoleEntry :=
  [ console_log_entry "Iniciando captura de localização..." [];
    console_log_entry "Solicitando permissão de localização..." [] ].

(** An engine whose [JSON.parse] rejects every text but [true] and [false],
    and a device whose stored preference is not JSON. *)
Definition reject_other (text : string) : Outcome JSValue :=
  inl {| name := "SyntaxError"; message := "Unexpected token in JSON" |}.

Definition corrupt_preference_World : World :=
  with_storage {[ "darkMode" := "{dark" ]} initial_World.

(** ** What the user is shown *)

(** The alert of [getLocation] when the permission status is not
    ['granted']. *)
Definition permission_alert : Alert :=
  {| alert_title := "Permissão de Localização";
     alert_message := "Permissão para acessar a localização foi negada. Por favor, habilite-a nas configurações do seu dispositivo." |}.

(** The alert of the [catch] block of [getLocation]. *)
Definition error_alert (error : Error) : Alert :=
  {| alert_title := "Erro";
     alert_message := "Não foi possível capturar a localização. Detalhes: "
                        ++ error_details error ++ ". Tente novamente." |}.

(** The console line of the [finally] block of [getLocation]; [b] is the
    [isLoading] of the render the call was started from. *)
Definition finishing_entry (b : bool) : ConsoleEntry :=
  console_log_entry "Finalizando captura de localização. isLoading:" [LBool b].

(** [Number.prototype.toString] on an integer: its decimal numeral, with a
    minus sign when negative.  A JavaScript number holds an integer exactly
    up to [MAX_SAFE_INTEGER] in absolute value. *)
Definition MAX_SAFE_INTEGER : Z := 9007199254740991.

Definition Number_toString (n : Z) : string :=
  DecimalString.NilZero.string_of_int (Z.to_int n).

(** The [keyExtractor] of the list and the [title] of a rendered item. *)
Definition keyExtractor (item : Row) : string := Number_toString (id item).

Definition item_title (item : Row) : string := "Localização " ++ Number_toString (id item).

(** ** The start of the application *)

(** [initializeData], as the mount effect calls it: [createTable()] is
    called and not awaited, so it runs up to its first [await] and stays
    pending on its own; the rest of the body, [await loadDarkMode(); await
    loadLocations();], runs up to its first [await] and is pending as a
    second call.  Nothing catches the rejection of either. *)
Definition initializeData (parse_other : string -> Outcome JSValue)
    (fc : TxnFaults) (get_fault : option Error) (fl : TxnFaults) (s : Loop) : Loop :=
  let (p0, w0) := advance (createTable fc) (world s) in
  let (p1, w1) :=
    advance (loadDarkMode parse_other get_fault ;; loadLocations fl ;; Ret JUndefined) w0 in
  {| world := w1; pending := pending s ++ [p0; p1] |}.

(** The world a session starts in: the component state of the first render,
    a stored preference [pref] if there is one, the table [t] of an earlier
    session if there is one. *)
Definition startup_World (pref : option bool) (t : option Table) : World :=
  {| isSwitchOn := JBool false; isLoading := false; locations := None; theme := myColors;
     storage := match pref with Some b => {[ "darkMode" := JSON_stringify b ]} | None => ∅ end;
     db := {| tables := match t with Some tb => {[ "locations" := tb ]} | None => ∅ end;
              txn := None |};
     console := []; alerts := [] |}.

Definition startup_rows (t : option Table) : list Row :=
  match t with
  | Some tb => table_scan tb
  | None => []
  end.

(** What holds once both calls of [initializeData] are over: nothing was
    shown to the user, no transaction is open, the stored preference is
    installed; the store holds the rows it held, in a table that exists, or
    (first start only) [createTable] was rejected and there is no table;
    and either the list was loaded with the stored rows, or it is still
    [null] and the second call was rejected. *)
Definition after_startup (pref : option bool) (t : option Table) (s : Loop) : Prop :=
  alerts (world s) = [] /\
  isLoading (world s) = false /\
  txn (db (world s)) = None /\
  isSwitchOn (world s) = JBool (default false pref) /\
  (stored_rows (db (world s)) = Some (startup_rows t) \/
   t = None /\ stored_rows (db (world s)) = None /\
   exists e, pending s !! 0%nat = Some (Throw e)) /\
  (pending s !! 0%nat = Some (Ret JUndefined) ->
   stored_rows (db (world s)) = Some (startup_rows t)) /\
  (pending s !! 1%nat = Some (Ret JUndefined) /\
   locations (world s) = Some (startup_rows t) /\
   stored_rows (db (world s)) = Some (startup_rows t)
   \/
   locations (world s) = None /\ exists e, pending s !! 1%nat = Some (Throw e)).

(** The orders in which the awaited platform calls of two pending calls can
    complete, when the first awaits at most [a] times and the second at most
    [b] times; [0] stands for a completion of the first, [1] of the
    second. *)
Fixpoint interleavings (fuel a b : nat) : list (list nat) :=
  match fuel with
  | O => [[]]
  | S fuel' =>
      [] :: (match a with
             | O => []
             | S a' => map (cons 0%nat) (interleavings fuel' a' b)
             end)
         ++ (match b with
             | O => []
             | S b' => map (cons 1%nat) (interleavings fuel' a b')
             end)
  end.

(** A program awaits at most [n] times, whatever the platform answers. *)
Inductive awaits_le {A : Type} : nat -> Prog A -> Prop :=
| awaits_le_Ret n a : awaits_le n (Ret a)
| awaits_le_Throw n e : awaits_le n (Throw e)
| awaits_le_Sync n X (op : World -> Outcome X * World) k :
    (forall o, awaits_le n (k o)) -> awaits_le n (Sync op k)
| awaits_le_Await n X (op : World -> Outcome X * World) k :
    (forall o, awaits_le n (k o)) -> awaits_le (S n) (Await op k).

(** A pending call is at an [await] or over, never in a synchronous
    stretch. *)
Definition suspended {A : Type} (p : Prog A) : Prop :=
  match p with
  | Sync _ _ => False
  | _ => True
  end.

(** ** The published list *)

(** The list on the screen is a beginning of the rows of the table. *)
Definition published_ok (w : World) : Prop :=
  forall l, locations w = Some l ->
    exists t later, tables (db w) !! "locations" = Some t /\ rows t = (l ++ later)%list.

(** ** More scenarios *)

(** The permission dialog was dismissed: the status is neither ['granted']
    nor ['denied']. *)
Definition undetermined : CaptureEnv :=
  {| permission := inr "undetermined";
     position := inr {| coords_latitude := 0; coords_longitude := 0 |};
     save_faults := no_faults;
     load_faults := no_faults |}.

Definition timeout_error : Error :=
  {| name := "Error"; message := "Location request timed out" |}.

(** The permission is granted and the position reading fails. *)
Definition position_times_out : CaptureEnv :=
  {| permission := inr "granted";
     position := inl timeout_error;
     save_faults := no_faults;
     load_faults := no_faults |}.

(** The COMMIT of the transaction finds the database locked. *)
Definition fails_at_commit : TxnFaults :=
  {| begin_fault := None; task_fault := None; commit_fault := Some busy_fault |}.


(** The location provider answers with a latitude that is not a number and
    a negative zero for the longitude. *)
Definition granted_at_nan : CaptureEnv := granted_at PrimFloat.nan (-0)%float.

(** A device with the preference stored as [true]. *)
Definition dark_preference_World : World :=
  with_storage {[ "darkMode" := "true" ]} initial_World.

(** The application after its first start and one capture. *)
Definition one_capture_World : World :=
  foldl operate initial_World
    [OpCreateTable no_faults; OpGetLocation (granted_at 37.422 (-122.084))].

(** * Running programs: the laws of the combinators *)

Lemma run_bind {A B : Type} (p : Prog A) (f : A -> Prog B) (w : World) :
  run (bind p f) w =
  match run p w with
  | (inl e, w') => (inl e, w')
  | (inr a, w') => run (f a) w'
  end.
Proof.
  revert w. induction p as [a | e | X op k IH | X op k IH]; intros w; simpl;
    try reflexivity.
  - destruct (op w) as [o w']. apply IH.
  - destruct (op w) as [o w']. apply IH.
Qed.

Lemma run_try_catch {A : Type} (p : Prog A) (h : Error -> Prog A) (w : World) :
  run (try_catch p h) w =
  match run p w with
  | (inl e, w') => run (h e) w'
  | (inr a, w') => (inr a, w')
  end.
Proof.
  revert w. induction p as [a | e | X op k IH | X op k IH]; intros w; simpl;
    try reflexivity.
  - destruct (op w) as [o w']. apply IH.
  - destruct (op w) as [o w']. apply IH.
Qed.

Lemma run_try_finally {A : Type} (p : Prog A) (fin : Prog unit) (w : World) :
  run (try_finally p fin) w =
  match run p w with
  | (o, w') =>
      match run fin w' with
      | (inl e, w'') => (inl e, w'')
      | (inr _, w'') => (o, w'')
      end
  end.
Proof.
  revert w. induction p as [a | e | X op k IH | X op k IH]; intros w; simpl.
  - rewrite run_bind. destruct (run fin w) as [[e | []] w']; reflexivity.
  - rewrite run_bind. destruct (run fin w) as [[e' | []] w']; reflexivity.
  - destruct (op w) as [o w']. apply IH.
  - destruct (op w) as [o w']. apply IH.
Qed.

(** Suspension points do not change what a call does when nothing else
    runs in between. *)
Lemma run_advance {A : Type} (p : Prog A) (w : World) :
  run p w = run (fst (advance p w)) (snd (advance p w)).
Proof.
  revert w. induction p as [a | e | X op k IH | X op k IH]; intros w; simpl;
    try reflexivity.
  destruct (op w) as [o w']. apply IH.
Qed.

Lemma run_resume {A : Type} (p : Prog A) (w : World) :
  run p w = run (fst (resume p w)) (snd (resume p w)).
Proof.
  destruct p as [a | e | X op k | X op k]; simpl; try reflexivity.
  destruct (op w) as [o w']. apply run_advance.
Qed.

(** * The REAL columns and the walk of the table *)

Lemma sql_real_nan (x : float) : PrimFloat.is_nan x = true -> sql_real x = None.
Proof. intros H. unfold sql_real. rewrite H. reflexivity. Qed.

(** A number that is not zero is kept as it is. *)
Lemma sql_real_nonzero (x : float) :
  PrimFloat.is_nan x = false -> PrimFloat.eqb 0 x = false -> sql_real x = Some x.
Proof. intros Hn Hz. unfold sql_real. rewrite Hn, Hz. reflexivity. Qed.

(** A number is kept as a number equal to it ([==]); the sign of a zero is
    lost. *)
Lemma sql_real_number (x : float) :
  PrimFloat.is_nan x = false ->
  exists y, sql_real x = Some y /\ PrimFloat.eqb y x = true.
Proof.
  intros Hn. unfold sql_real. rewrite Hn.
  destruct (PrimFloat.eqb 0 x) eqn:Hz.
  - exists 0%float. split; [reflexivity | exact Hz].
  - exists x. split; [reflexivity |].
    unfold PrimFloat.is_nan in Hn. apply Bool.negb_false_iff in Hn. exact Hn.
Qed.

Definition id_le (r1 r2 : Row) : Prop := id r1 <= id r2.


Lemma insert_by_last (leb : Row -> Row -> bool) (x r : Row) (l : list Row) :
  leb x r = true -> insert_by leb x (l ++ [r]) = (insert_by leb x l ++ [r])%list.
Proof.
  intros Hle. induction l as [| y l IH]; cbn.
  - rewrite Hle. reflexivity.
  - destruct (leb x y); [reflexivity |]. rewrite IH. reflexivity.
Qed.




(** Rows listed by ascending rowid are walked as they are listed. *)
Lemma sort_rows_ascending (l : list Row) :
  StronglySorted id_le l -> sort_rows (col_id, ASC) l = l.
Proof.
  unfold sort_rows. induction l as [| x l IH]; intros Hs; cbn; [reflexivity |].
  apply StronglySorted_inv in Hs. destruct Hs as [Hs Hx].
  rewrite (IH Hs). destruct l as [| y l]; [reflexivity |]. cbn.
  apply List.Forall_inv in Hx. replace (id x <=? id y) with true; [reflexivity |].
  symmetry. apply Z.leb_le. exact Hx.
Qed.

(** A row whose rowid is the largest comes last in the walk. *)
Lemma sort_rows_last (l : list Row) (r : Row) :
  (forall x, In x l -> id x <= id r) ->
  sort_rows (col_id, ASC) (l ++ [r]) = (sort_rows (col_id, ASC) l ++ [r])%list.
Proof.
  unfold sort_rows. induction l as [| x l IH]; intros Hmax; cbn; [reflexivity |].
  rewrite IH by (intros y Hy; apply Hmax; right; exact Hy).
  apply insert_by_last. cbn. apply Z.leb_le. apply Hmax. left. reflexivity.
Qed.

Lemma max_rowid_bound (l : list Row) (x : Row) : In x l -> id x <= max_rowid l.
Proof.
  unfold max_rowid. induction l as [| y l IH]; cbn; [tauto |].
  intros [<- | Hx]; [lia |]. specialize (IH Hx). lia.
Qed.

(** AUTOINCREMENT gives the new row the largest rowid: it is the last of
    the walk, after the rows that were there, which stay as they were. *)
Lemma table_scan_insert (t : Table) (lat lon : float) :
  table_scan (table_insert t lat lon) =
  (table_scan t ++ [ {| id := last_rowid t + 1;
                        latitude := sql_real lat; longitude := sql_real lon |} ])%list.
Proof.
  unfold table_scan, table_insert. cbn [rows].
  apply sort_rows_last. intros x Hx. cbn [id].
  pose proof (max_rowid_bound (rows t) x Hx). unfold last_rowid. lia.
Qed.

Arguments table_scan : simpl never.

(** * Symbolic execution of the component's functions *)

Ltac break_world w :=
  let d := fresh "d" in
  destruct w as [? ? ? ? ? d ? ?]; destruct d as [? ?]; simpl in *.

Ltac break_fault x := destruct x as [[? []] |].

Ltac break_faults f :=
  let b := fresh "fb" in
  let t := fresh "ft" in
  let c := fresh "fc" in
  destruct f as [b t c]; break_fault b; break_fault t; break_fault c.

Ltac unfold_sql :=
  unfold sql_insert, sql_select_all, sql_create_table_if_not_exists,
    sql_begin, sql_commit, sql_rollback, sql_abort in *.

Ltac lookup_locations :=
  match goal with
  | |- context [?m !! "locations"] =>
      let t := fresh "t" in
      let Ht := fresh "Ht" in
      destruct (m !! "locations") as [t |] eqn:Ht
  end.

Lemma Database_eta (d : Database) : {| tables := tables d; txn := txn d |} = d.
Proof. destruct d; reflexivity. Qed.

(** [createTable], when no transaction is open: it fails and leaves the
    store as it was, or succeeds and the table is there. *)
Lemma createTable_summary (f : TxnFaults) (w : World) :
  txn (db w) = None ->
  let (o, w') := run (createTable f) w in
  txn (db w') = None /\
  match o with
  | inl _ => db w' = db w
  | inr v =>
      v = JUndefined /\ f = no_faults /\
      tables (db w') =
        match tables (db w) !! "locations" with
        | Some _ => tables (db w)
        | None => <["locations" := {| rows := []; sequence := 0 |}]> (tables (db w))
        end
  end.
Proof.
  intros Htxn. break_world w. subst.
  break_faults f; cbn; unfold_sql; cbn; try (split; reflexivity).
  all: lookup_locations; cbn; repeat split.
Qed.

(** [saveLocation], when no transaction is open: it fails and leaves the
    store as it was, or succeeds, and then the table has one more row, the
    transaction is committed, and the new id is on the console. *)
Lemma saveLocation_summary (f : TxnFaults) (lat lon : float) (w : World) :
  txn (db w) = None ->
  let (o, w') := run (saveLocation f lat lon) w in
  locations w' = locations w /\ alerts w' = alerts w /\ isLoading w' = isLoading w /\
  match o with
  | inl e =>
      db w' = db w /\
      console w' =
        (console w ++ [console_error_entry "Erro ao salvar localização:" [LError e]])%list
  | inr v =>
      v = JUndefined /\
      exists t,
        tables (db w) !! "locations" = Some t /\
        last_rowid t < MAX_ROWID /\
        db w' = {| tables := <["locations" := table_insert t lat lon]> (tables (db w));
                   txn := None |} /\
        console w' =
          (console w ++
             [console_log_entry "Localização salva, ID:" [LId (Some (last_rowid t + 1))]])%list
  end.
Proof.
  intros Htxn. break_world w. subst.
  break_faults f; cbn; unfold_sql; cbn; try (repeat split; reflexivity).
  all: lookup_locations; cbn; try (repeat split; reflexivity).
  all: destruct (MAX_ROWID <=? last_rowid t) eqn:Hmax; cbn; try (repeat split; reflexivity).
  do 4 (split; [reflexivity |]). exists t.
  apply Z.leb_gt in Hmax. repeat split; assumption.
Qed.

(** [loadLocations], when no transaction is open: the store is left as it
    was; on success the rows of the table are published, by ascending
    rowid, on failure the published list is not touched. *)
Lemma loadLocations_summary (f : TxnFaults) (w : World) :
  txn (db w) = None ->
  let (o, w') := run (loadLocations f) w in
  db w' = db w /\ alerts w' = alerts w /\ isLoading w' = isLoading w /\
  match o with
  | inl e =>
      locations w' = locations w /\
      console w' =
        (console w ++ [console_error_entry "Erro ao carregar localizações:" [LError e]])%list
  | inr v =>
      v = JUndefined /\
      exists t,
        tables (db w) !! "locations" = Some t /\
        locations w' = Some (table_scan t) /\
        console w' =
          (console w ++ [console_log_entry "Localizações carregadas:" [LRows (table_scan t)]])%list
  end.
Proof.
  intros Htxn. break_world w. subst.
  break_faults f; cbn; unfold_sql; cbn; try (repeat split; reflexivity).
  all: lookup_locations; cbn; try (repeat split; reflexivity).
  do 4 (split; [reflexivity |]). exists t. repeat split.
Qed.

(** With no platform fault, [loadLocations] fails only for want of the
    table. *)
Lemma loadLocations_no_faults (w : World) (t : Table) :
  txn (db w) = None ->
  tables (db w) !! "locations" = Some t ->
  fst (run (loadLocations no_faults) w) = inr JUndefined.
Proof.
  intros Htxn Ht. break_world w. subst.
  cbn; unfold_sql; cbn. rewrite Ht. reflexivity.
Qed.

Ltac no_marker :=
  eexists; split;
  [ rewrite <- ?app_assoc; reflexivity
  | cbn; unfold reload_marker; intros Hin;
    repeat (destruct Hin as [Hin | Hin]; [discriminate Hin |]); exact Hin ].

(** A capture that stops before the reload. *)
Ltac stops_early :=
  cbn;
  do 3 (split; [reflexivity |]);
  split; [eexists; reflexivity |];
  split;
  [ intros _; split; [reflexivity |]; split;
    [ first [ intros _; reflexivity | intros Hopen; discriminate Hopen ] | no_marker ]
  | intros Hp; discriminate Hp ].

(** The case analysis of a capture: the permission answer, the position
    answer, the faults of the insert, the state of the store, the faults of
    the reload. *)
Ltac capture_cases perm pos fs fl :=
  destruct perm as [ep | status]; [stops_early |];
  destruct (String.eqb status "granted") eqn:Hst;
    [| cbn; rewrite Hst; stops_early];
  apply String.eqb_eq in Hst; subst status;
  destruct pos as [ep | c]; [stops_early |];
  match goal with |- context [mkDatabase _ ?x] => destruct x as [snap |] end;
  (break_faults fs; cbn; unfold_sql; cbn; try stops_early);
  (lookup_locations; cbn; try stops_early);
  (match goal with
   | |- context [MAX_ROWID <=? last_rowid ?t] =>
       destruct (MAX_ROWID <=? last_rowid t) eqn:Hmax
   end; cbn; try stops_early);
  (break_faults fl; cbn; unfold_sql; cbn; rewrite ?lookup_insert_eq; cbn);
  do 2 (split; [reflexivity |]);
  first
    [ solve [ split; [reflexivity |];
              split; [eexists; reflexivity |];
              split; [intros Hp; contradiction (Hp eq_refl) |];
              intros _; do 2 eexists; repeat split ]
    | solve [ do 2 eexists; repeat split ] ].

(** [getLocation] from any world and with any answers of the platform: it
    returns normally with the loading flag down, and
    - if the capture fails, the published list is as before and one alert is
      added; unless the failure is that of the reload, the committed tables
      are as before (the whole store, when no transaction was open) and the
      reload has not been started; if it is, the new row stays committed;
    - if nothing fails, the table has one more row, which carries the
      coordinates read as the REAL columns keep them, and the published
      list is the table's rows by ascending rowid. *)
Lemma getLocation_summary (b : bool) (env : CaptureEnv) (w : World) :
  let (o, w') := run (getLocation b env) w in
  o = inr JUndefined /\ isLoading w' = false /\
  match capture_failure env w with
  | Some p =>
      locations w' = locations w /\
      (exists a, alerts w' = (alerts w ++ [a])%list) /\
      (p <> AtReload ->
         committed (db w') = committed (db w) /\
         (txn (db w) = None -> db w' = db w) /\
         exists new, console w' = (console w ++ new)%list /\ ~ In reload_marker new) /\
      (p = AtReload ->
         exists t c,
           position env = inr c /\ txn (db w) = None /\
           tables (db w) !! "locations" = Some t /\
           db w' = {| tables := <["locations" :=
                                    table_insert t (coords_latitude c) (coords_longitude c)]>
                                  (tables (db w));
                      txn := None |})
  | None =>
      exists t c,
        position env = inr c /\ txn (db w) = None /\
        tables (db w) !! "locations" = Some t /\
        db w' = {| tables := <["locations" :=
                                 table_insert t (coords_latitude c) (coords_longitude c)]>
                               (tables (db w));
                   txn := None |} /\
        locations w' =
          Some (table_scan (table_insert t (coords_latitude c) (coords_longitude c))) /\
        alerts w' = alerts w
  end.
Proof.
  destruct env as [perm pos fs fl]. break_world w. unfold capture_failure.
  capture_cases perm pos fs fl.
Qed.

(** * Capture: success *)

(** C1, as the code has it. For every successful capture (permission
    granted, position read, insert and reload succeed, i.e.
    [capture_failure] finds no failing step), the list that [loadLocations]
    publishes, and would publish again if called right after, is the list
    it would have published before the capture with exactly one record
    appended, and this record carries the latitude and longitude returned by
    the location provider as the REAL columns keep them: a coordinate that
    is a number other than zero is the number read, a zero comes back as
    [+0], and a coordinate that is NaN comes back as [null]. *)
Theorem capture_success_adds_one_record (b : bool) (env : CaptureEnv) (w : World) :
  capture_failure env w = None ->
  let w' := snd (run (getLocation b env) w) in
  exists (before : list Row) (r : Row) (c : Coords),
    position env = inr c /\
    locations (snd (run (loadLocations no_faults) w)) = Some before /\
    locations w' = Some (before ++ [r])%list /\
    locations (snd (run (loadLocations no_faults) w')) = Some (before ++ [r])%list /\
    stored_rows (db w') = Some (before ++ [r])%list /\
    length (before ++ [r])%list = S (length before) /\
    latitude r = sql_real (coords_latitude c) /\
    longitude r = sql_real (coords_longitude c) /\
    (PrimFloat.is_nan (coords_latitude c) = false ->
     PrimFloat.eqb 0 (coords_latitude c) = false ->
     latitude r = Some (coords_latitude c)) /\
    (PrimFloat.is_nan (coords_longitude c) = false ->
     PrimFloat.eqb 0 (coords_longitude c) = false ->
     longitude r = Some (coords_longitude c)) /\
    (PrimFloat.is_nan (coords_latitude c) = false ->
     exists x, latitude r = Some x /\ PrimFloat.eqb x (coords_latitude c) = true) /\
    (PrimFloat.is_nan (coords_longitude c) = false ->
     exists y, longitude r = Some y /\ PrimFloat.eqb y (coords_longitude c) = true).
Proof.
  intros Hok w'. subst w'.
  pose proof (getLocation_summary b env w) as Hsum.
  destruct (run (getLocation b env) w) as [o w']. cbn [snd].
  rewrite Hok in Hsum.
  destruct Hsum as (_ & _ & t & c & Hpos & Htxn & Ht & Hdb & Hloc & _).
  exists (table_scan t), {| id := last_rowid t + 1;
                            latitude := sql_real (coords_latitude c);
                            longitude := sql_real (coords_longitude c) |}, c.
  rewrite table_scan_insert in Hloc.
  assert (Ht' : tables (db w') !! "locations"
                = Some (table_insert t (coords_latitude c) (coords_longitude c))).
  { rewrite Hdb. cbn. apply lookup_insert_eq. }
  assert (Htxn' : txn (db w') = None) by (rewrite Hdb; reflexivity).
  split; [exact Hpos |]. split; [| split; [exact Hloc | split; [| split]]].
  - pose proof (loadLocations_summary no_faults w Htxn) as Hl.
    pose proof (loadLocations_no_faults w t Htxn Ht) as Hfst.
    destruct (run (loadLocations no_faults) w) as [o1 w1]. cbn [fst snd] in *.
    subst o1. destruct Hl as (_ & _ & _ & _ & t1 & Ht1 & Hloc1 & _).
    congruence.
  - pose proof (loadLocations_summary no_faults w' Htxn') as Hl.
    pose proof (loadLocations_no_faults w' _ Htxn' Ht') as Hfst.
    destruct (run (loadLocations no_faults) w') as [o1 w1]. cbn [fst snd] in *.
    subst o1. destruct Hl as (_ & _ & _ & _ & t1 & Ht1 & Hloc1 & _).
    rewrite Hloc1. rewrite Ht' in Ht1. injection Ht1 as <-.
    rewrite table_scan_insert. reflexivity.
  - unfold stored_rows. rewrite Ht'. cbn. rewrite table_scan_insert. reflexivity.
  - split; [rewrite length_app; cbn; lia |].
    cbn [latitude longitude].
    split; [reflexivity |]. split; [reflexivity |].
    split; [apply sql_real_nonzero |]. split; [apply sql_real_nonzero |].
    split; apply sql_real_number.
Qed.

(** * Capture: failure *)

(** C4, as the code has it. For every failing capture (permission denied or
    its request rejected, position unavailable, storage failure), the call
    returns normally, so no rejection escapes [getLocation]; the loading
    flag is false at the end; one alert is shown; and when the failing step
    is the permission, the position or the insert, the committed contents of
    the store are unchanged (the whole store, when no transaction was open).
    When the failing step is the reload, the record inserted just before
    stays in the store. *)
Theorem failed_capture_is_handled (b : bool) (env : CaptureEnv) (w : World) (p : FailurePoint) :
  capture_failure env w = Some p ->
  let (o, w') := run (getLocation b env) w in
  o = inr JUndefined /\
  isLoading w' = false /\
  (exists a, alerts w' = (alerts w ++ [a])%list) /\
  (p <> AtReload ->
     committed (db w') = committed (db w) /\
     (txn (db w) = None -> db w' = db w)) /\
  (p = AtReload ->
     exists before r, stored_rows (db w) = Some before /\
                      stored_rows (db w') = Some (before ++ [r])%list).
Proof.
  intros Hfail.
  pose proof (getLocation_summary b env w) as Hsum.
  destruct (run (getLocation b env) w) as [o w'].
  rewrite Hfail in Hsum.
  destruct Hsum as (Ho & Hld & _ & Hal & Hearly & Hlate).
  split; [exact Ho |]. split; [exact Hld |]. split; [exact Hal |]. split.
  - intros Hp. destruct (Hearly Hp) as (Hcom & Hdb & _). split; assumption.
  - intros Hp. destruct (Hlate Hp) as (t & c & _ & _ & Ht & Hdb).
    exists (table_scan t), {| id := last_rowid t + 1;
                              latitude := sql_real (coords_latitude c);
                              longitude := sql_real (coords_longitude c) |}.
    unfold stored_rows. rewrite Ht, Hdb. cbn. rewrite lookup_insert_eq. cbn.
    rewrite table_scan_insert. split; reflexivity.
Qed.

(** C9. For every capture that fails, at whichever step, the published list
    [locations] is left as it was; when the failure is a permission denial,
    a location failure or a failure of the insert, the reload is not even
    started.  Hence only a capture without failure can replace the
    published list. *)
Theorem failed_capture_keeps_published_list (b : bool) (env : CaptureEnv) (w : World) :
  let w' := snd (run (getLocation b env) w) in
  (forall p, capture_failure env w = Some p ->
     locations w' = locations w /\
     (p <> AtReload ->
        exists new, console w' = (console w ++ new)%list /\ ~ In reload_marker new)) /\
  (locations w' <> locations w -> capture_failure env w = None).
Proof.
  intros w'. subst w'.
  pose proof (getLocation_summary b env w) as Hsum.
  destruct (run (getLocation b env) w) as [o w']. cbn [snd].
  destruct (capture_failure env w) as [p |] eqn:Hfail.
  - destruct Hsum as (_ & _ & Hloc & _ & Hearly & _). split.
    + intros p' Hp'. injection Hp' as <-. split; [exact Hloc |].
      intros Hp. apply (Hearly Hp).
    + intros Hne. contradiction.
  - split; [intros p Hp; discriminate Hp | reflexivity].
Qed.

(** * The record store *)

(** Whatever the state of the store, a [saveLocation] that fails leaves
    the committed tables as they were, and one that succeeds found no
    transaction open. *)
Lemma saveLocation_rolls_back (f : TxnFaults) (lat lon : float) (w : World) :
  let (o, w') := run (saveLocation f lat lon) w in
  match o with
  | inl e =>
      committed (db w') = committed (db w) /\
      console w' =
        (console w ++ [console_error_entry "Erro ao salvar localização:" [LError e]])%list
  | inr _ => txn (db w) = None
  end.
Proof.
  break_world w.
  match goal with |- context [mkDatabase _ ?x] => destruct x as [snap |] end.
  all: break_faults f; cbn; unfold_sql; cbn; try (split; reflexivity).
  all: lookup_locations; cbn; try (split; reflexivity).
  all: destruct (MAX_ROWID <=? last_rowid t); cbn; first [split; reflexivity | reflexivity].
Qed.

(** C3, as the code has it. Every [saveLocation] call runs as one
    transaction: when it fails, whatever the failing step, the committed
    contents of the store are exactly as before (the whole store, when no
    transaction was open) and the error is logged and rethrown; when it
    succeeds, the table has exactly one more row, committed, under the next
    id, with the two coordinates as the REAL columns keep them
    ([sql_real]).  The id is read back and written on the console; the call
    itself returns [undefined]. *)
Theorem saveLocation_all_or_nothing (f : TxnFaults) (lat lon : float) (w : World) :
  let (o, w') := run (saveLocation f lat lon) w in
  match o with
  | inl e =>
      committed (db w') = committed (db w) /\
      (txn (db w) = None -> db w' = db w) /\
      console w' =
        (console w ++ [console_error_entry "Erro ao salvar localização:" [LError e]])%list
  | inr v =>
      v = JUndefined /\
      exists before r,
        stored_rows (db w) = Some before /\
        stored_rows (db w') = Some (before ++ [r])%list /\
        latitude r = sql_real lat /\ longitude r = sql_real lon /\
        txn (db w') = None /\
        (forall tbl, tbl <> "locations" -> tables (db w') !! tbl = tables (db w) !! tbl) /\
        console w' =
          (console w ++ [console_log_entry "Localização salva, ID:" [LId (Some (id r))]])%list
  end.
Proof.
  pose proof (saveLocation_rolls_back f lat lon w) as Hgen.
  pose proof (saveLocation_summary f lat lon w) as Hsum.
  destruct (run (saveLocation f lat lon) w) as [[e | v] w'].
  - destruct Hgen as (Hcom & Hcon). split; [exact Hcom |]. split; [| exact Hcon].
    intros Htxn. destruct (Hsum Htxn) as (_ & _ & _ & Hdb & _). exact Hdb.
  - destruct (Hsum Hgen) as (_ & _ & _ & Hv & t & Ht & _ & Hdb & Hcon).
    split; [exact Hv |].
    exists (table_scan t),
      {| id := last_rowid t + 1; latitude := sql_real lat; longitude := sql_real lon |}.
    unfold stored_rows. rewrite Ht, Hdb. cbn. rewrite lookup_insert_eq. cbn.
    rewrite table_scan_insert.
    repeat split; try assumption.
    intros tbl Hne. apply lookup_insert_ne. congruence.
Qed.

(** With no platform fault and no transaction open, [createTable] succeeds. *)
Lemma createTable_no_faults (w : World) :
  txn (db w) = None ->
  fst (run (createTable no_faults) w) = inr JUndefined.
Proof.
  intros Htxn. break_world w. subst.
  cbn; unfold_sql; cbn. lookup_locations; reflexivity.
Qed.

(** Once the table is there, further [createTable] calls change nothing. *)
Lemma createTable_again (n : nat) (w : World) :
  txn (db w) = None ->
  is_Some (tables (db w) !! "locations") ->
  let (os, w') := call_times (createTable no_faults) n w in
  Forall (fun o => o = inr JUndefined) os /\ length os = n /\ db w' = db w.
Proof.
  revert w. induction n as [| n IH]; intros w Htxn Hex; cbn [call_times].
  - split; [constructor | split; reflexivity].
  - pose proof (createTable_summary no_faults w Htxn) as H1.
    pose proof (createTable_no_faults w Htxn) as Ho.
    destruct (run (createTable no_faults) w) as [o w1]. cbn [fst] in Ho. subst o.
    destruct Hex as [t Ht].
    destruct H1 as (Htxn1 & _ & _ & Htb). rewrite Ht in Htb.
    assert (Hdb : db w1 = db w).
    { destruct (db w1), (db w); simpl in *; congruence. }
    assert (Hex1 : is_Some (tables (db w1) !! "locations")) by (rewrite Hdb, Ht; eauto).
    specialize (IH w1 Htxn1 Hex1).
    destruct (call_times (createTable no_faults) n w1) as [os w'].
    destruct IH as (Hos & Hlen & Hdb').
    split; [constructor; [reflexivity | assumption] |].
    split; [simpl; congruence | congruence].
Qed.

(** C6. [createTable] is idempotent: called [n > 1] times in a row (with no
    platform fault and no transaction open), every call returns without
    error, the store after the last call is the store after the first, it
    holds the [locations] table and no table other than those it held
    before, exactly one on a fresh database, and when the table was already
    there the store, records included, is untouched. *)
Theorem createTable_idempotent (n : nat) (w : World) :
  txn (db w) = None ->
  (1 < n)%nat ->
  let (os, w') := call_times (createTable no_faults) n w in
  Forall (fun o => o = inr JUndefined) os /\
  length os = n /\
  db w' = db (snd (run (createTable no_faults) w)) /\
  is_Some (tables (db w') !! "locations") /\
  dom (tables (db w')) = dom (tables (db w)) ∪ {[ "locations" ]} /\
  (tables (db w) = ∅ -> size (tables (db w')) = 1%nat) /\
  (forall t, tables (db w) !! "locations" = Some t -> db w' = db w).
Proof.
  intros Htxn Hn. destruct n as [| n]; [lia |]. cbn [call_times].
  pose proof (createTable_summary no_faults w Htxn) as H1.
  pose proof (createTable_no_faults w Htxn) as Ho.
  destruct (run (createTable no_faults) w) as [o w1]. cbn [fst snd] in *. subst o.
  destruct H1 as (Htxn1 & _ & _ & Htb1).
  assert (Hex1 : is_Some (tables (db w1) !! "locations")).
  { rewrite Htb1. destruct (tables (db w) !! "locations") as [t |] eqn:Ht.
    - rewrite Ht. eauto.
    - rewrite lookup_insert_eq. eauto. }
  pose proof (createTable_again n w1 Htxn1 Hex1) as H2.
  destruct (call_times (createTable no_faults) n w1) as [os w'].
  destruct H2 as (Hos & Hlen & Hdb). rewrite Hdb.
  split; [constructor; [reflexivity | assumption] |].
  split; [simpl; congruence |].
  split; [reflexivity |].
  split; [exact Hex1 |].
  rewrite Htb1. split; [| split].
  - destruct (tables (db w) !! "locations") as [t |] eqn:Ht.
    + apply set_eq. intros x.
      rewrite elem_of_union, elem_of_singleton, !elem_of_dom.
      split; [tauto |]. intros [Hx | ->]; [assumption | rewrite Ht; eauto].
    + rewrite dom_insert_L. apply set_eq. intros x.
      rewrite !elem_of_union, elem_of_singleton. tauto.
  - intros Hemp. rewrite Hemp, lookup_empty.
    rewrite map_size_insert_None by apply lookup_empty.
    rewrite map_size_empty. reflexivity.
  - intros t Ht. rewrite Ht in Htb1.
    destruct (db w1), (db w); simpl in *; congruence.
Qed.

(** * The dark-mode preference *)

Lemma JSON_parse_stringify (parse_other : string -> Outcome JSValue) (b : bool) :
  JSON_parse parse_other (JSON_stringify b) = inr (JBool b).
Proof. destruct b; reflexivity. Qed.

(** C7. The preference round-trips: when the toggle sets the flag to [b]
    and its write succeeds, ["darkMode"] holds [b]'s JSON text and a load in
    a fresh session yields [b], for [b = true] and for [b = false]; and when
    ["darkMode"] was never stored, the load of a fresh session yields the
    default [false]. *)
Theorem darkMode_round_trip (parse_other : string -> Outcome JSValue) (w : World) :
  (forall b : bool,
     ToBoolean (isSwitchOn w) = negb b ->
     let saved := snd (run (onToggleSwitch (isSwitchOn w) None) w) in
     isSwitchOn saved = JBool b /\
     storage saved !! "darkMode" = Some (JSON_stringify b) /\
     isSwitchOn (snd (run (loadDarkMode parse_other None) (fresh_session saved))) = JBool b)
  /\
  (forall get_fault : option Error,
     storage w !! "darkMode" = None ->
     isSwitchOn (snd (run (loadDarkMode parse_other get_fault) (fresh_session w)))
     = JBool false).
Proof.
  split.
  - intros b Hb. destruct w as [sw ld loc th st d con al]. simpl in Hb.
    cbn. rewrite Hb, Bool.negb_involutive, lookup_insert_eq.
    split; [reflexivity |]. split; [reflexivity |].
    rewrite JSON_parse_stringify. reflexivity.
  - intros [e |] Habs; destruct w as [sw ld loc th st d con al]; simpl in Habs; cbn.
    + reflexivity.
    + rewrite Habs. reflexivity.
Qed.

(** C8, as the code has it. When the write of the flag fails, the toggle
    still returns normally; the failure is logged and nothing else is shown;
    the stored value is left as it was; and the in-memory flag keeps the
    toggled, unpersisted value, so that the theme follows the toggle (dark
    when the flag was off), not the default. *)
Theorem toggle_write_failure_keeps_toggled_value (w : World) (e : Error) :
  let (o, w') := run (onToggleSwitch (isSwitchOn w) (Some e)) w in
  o = inr JUndefined /\
  console w' = (console w ++ [console_error_entry "Failed to save dark mode." []])%list /\
  alerts w' = alerts w /\
  isLoading w' = isLoading w /\
  storage w' = storage w /\
  isSwitchOn w' = JBool (negb (ToBoolean (isSwitchOn w))) /\
  theme (themeEffect w') = if ToBoolean (isSwitchOn w) then myColors else myColorsDark.
Proof.
  destruct w as [sw ld loc th st d con al]. cbn.
  do 6 (split; [reflexivity |]).
  unfold themeEffect. cbn. destruct (ToBoolean sw); reflexivity.
Qed.

(** C10. When ["darkMode"] is absent from the storage, or holds a text that
    [JSON.parse] rejects, [loadDarkMode] returns normally and leaves the
    flag as it was, hence at its default [false] at startup; in the second
    case the error is caught and logged (as is a failure of the read
    itself). *)
Theorem loadDarkMode_absent_or_unparsable
    (parse_other : string -> Outcome JSValue) (get_fault : option Error) (w : World) :
  (storage w !! "darkMode" = None \/
   exists text err, storage w !! "darkMode" = Some text /\
                    JSON_parse parse_other text = inl err) ->
  let (o, w') := run (loadDarkMode parse_other get_fault) w in
  o = inr JUndefined /\
  isSwitchOn w' = isSwitchOn w /\
  isSwitchOn (snd (run (loadDarkMode parse_other get_fault) (fresh_session w)))
    = JBool false /\
  console w' =
    match get_fault, storage w !! "darkMode" with
    | None, None => console w
    | _, _ => (console w ++ [console_error_entry "Failed to load dark mode." []])%list
    end.
Proof.
  intros H. destruct w as [sw ld loc th st d con al]. simpl in H.
  destruct get_fault as [e |]; cbn.
  - destruct (st !! "darkMode"); repeat split.
  - destruct H as [H | (text & err & H & Hp)]; rewrite H; cbn.
    + repeat split.
    + rewrite Hp. cbn. repeat split.
Qed.

(** The same for a call that has been suspended at its permission request and
    is resumed in the world [w]. *)
Lemma getLocation_resumed_summary (b : bool) (env : CaptureEnv) (w0 w : World) :
  let (o, w') := run (fst (advance (getLocation b env) w0)) w in
  o = inr JUndefined /\ isLoading w' = false /\
  match capture_failure env w with
  | Some p =>
      locations w' = locations w /\
      (exists a, alerts w' = (alerts w ++ [a])%list) /\
      (p <> AtReload ->
         committed (db w') = committed (db w) /\
         (txn (db w) = None -> db w' = db w) /\
         exists new, console w' = (console w ++ new)%list /\ ~ In reload_marker new) /\
      (p = AtReload ->
         exists t c,
           position env = inr c /\ txn (db w) = None /\
           tables (db w) !! "locations" = Some t /\
           db w' = {| tables := <["locations" :=
                                    table_insert t (coords_latitude c) (coords_longitude c)]>
                                  (tables (db w));
                      txn := None |})
  | None =>
      exists t c,
        position env = inr c /\ txn (db w) = None /\
        tables (db w) !! "locations" = Some t /\
        db w' = {| tables := <["locations" :=
                                 table_insert t (coords_latitude c) (coords_longitude c)]>
                               (tables (db w));
                   txn := None |} /\
        locations w' =
          Some (table_scan (table_insert t (coords_latitude c) (coords_longitude c))) /\
        alerts w' = alerts w
  end.
Proof.
  destruct env as [perm pos fs fl]. break_world w. unfold capture_failure.
  capture_cases perm pos fs fl.
Qed.

(** * The invariant of the record store *)

Lemma ids_upto_S (n : nat) : ids_upto (S n) = (ids_upto n ++ [Z.of_nat (S n)])%list.
Proof. unfold ids_upto. rewrite seq_S, map_app. reflexivity. Qed.

Lemma ids_upto_bounds (n : nat) (i : Z) : In i (ids_upto n) -> 1 <= i <= Z.of_nat n.
Proof.
  unfold ids_upto. rewrite in_map_iff. intros (k & <- & Hk). apply in_seq in Hk. lia.
Qed.

Lemma max_rowid_le (l : list Row) (m : Z) :
  0 <= m -> (forall i, In i (map id l) -> i <= m) -> max_rowid l <= m.
Proof.
  intros Hm. induction l as [| r l IH]; intros Hall; cbn.
  - exact Hm.
  - apply Z.max_lub.
    + apply Hall. left. reflexivity.
    + apply IH. intros i Hi. apply Hall. right. exact Hi.
Qed.

Lemma last_rowid_counted (t : Table) :
  map id (rows t) = ids_upto (length (rows t)) ->
  sequence t = Z.of_nat (length (rows t)) ->
  last_rowid t = Z.of_nat (length (rows t)).
Proof.
  intros Hids Hseq. unfold last_rowid. rewrite Hseq. apply Z.max_l.
  apply max_rowid_le; [lia |]. intros i Hi. rewrite Hids in Hi.
  apply ids_upto_bounds in Hi. lia.
Qed.

Lemma table_insert_counted (t : Table) (lat lon : float) :
  map id (rows t) = ids_upto (length (rows t)) ->
  sequence t = Z.of_nat (length (rows t)) ->
  map id (rows (table_insert t lat lon)) = ids_upto (length (rows (table_insert t lat lon))) /\
  sequence (table_insert t lat lon) = Z.of_nat (length (rows (table_insert t lat lon))).
Proof.
  intros Hids Hseq. pose proof (last_rowid_counted t Hids Hseq) as Hlast.
  unfold table_insert. cbn [rows sequence].
  rewrite length_app, map_app, Hids, Hlast. cbn [length map id].
  replace (length (rows t) + 1)%nat with (S (length (rows t))) by lia.
  rewrite ids_upto_S. split; [f_equal; f_equal; lia | lia].
Qed.

Lemma ids_upto_sorted (n : nat) : StronglySorted Z.lt (ids_upto n).
Proof.
  induction n as [| n IH].
  - constructor.
  - rewrite ids_upto_S. 
    assert (G : forall l x, StronglySorted Z.lt l -> (forall i, In i l -> i < x) ->
                             StronglySorted Z.lt (l ++ [x])).
    { induction l as [| a l IHl]; intros x Hs Hlt; cbn.
      - constructor; constructor.
      - inversion Hs as [| ? ? Hs' Hall]; subst. constructor.
        + apply IHl; [exact Hs' |]. intros i Hi. apply Hlt. right. exact Hi.
        + apply Forall_app. split; [exact Hall |]. constructor; [| constructor].
          apply Hlt. left. reflexivity. }
    apply G; [exact IH |]. intros i Hi. apply ids_upto_bounds in Hi. lia.
Qed.

Lemma ascending_of_ids (l : list Row) :
  StronglySorted Z.lt (map id l) -> ascending l.
Proof.
  unfold ascending. induction l as [| r l IH]; cbn; intros Hs.
  - constructor.
  - inversion Hs as [| ? ? Hs' Hall]; subst. constructor.
    + apply IH. exact Hs'.
    + apply List.Forall_forall. intros r' Hr'.
      rewrite List.Forall_forall in Hall. apply Hall, in_map, Hr'.
Qed.

Lemma store_ok_initial : store_ok (db initial_World).
Proof. split; [reflexivity |]. intros t Ht. cbn in Ht. rewrite lookup_empty in Ht. discriminate. Qed.

Lemma store_ok_created (d : Database) :
  store_ok d -> tables d !! "locations" = None ->
  store_ok {| tables := <["locations" := {| rows := []; sequence := 0 |}]> (tables d); txn := None |}.
Proof.
  intros [Htxn Hok] Hnone. split; [reflexivity |]. intros t. cbn.
  rewrite lookup_insert_eq. intros [= <-]. split; reflexivity.
Qed.

Lemma store_ok_inserted (d : Database) (t : Table) (lat lon : float) :
  store_ok d -> tables d !! "locations" = Some t ->
  store_ok {| tables := <["locations" := table_insert t lat lon]> (tables d); txn := None |}.
Proof.
  intros [Htxn Hok] Ht. destruct (Hok t Ht) as [Hids Hseq].
  split; [reflexivity |]. intros t'. cbn [tables].
  rewrite lookup_insert_eq. intros [= <-]. apply table_insert_counted; assumption.
Qed.

Lemma loadDarkMode_keeps_store
    (parse_other : string -> Outcome JSValue) (get_fault : option Error) (w : World) :
  db (snd (run (loadDarkMode parse_other get_fault) w)) = db w.
Proof.
  destruct w as [sw ld loc th st d con al]. destruct get_fault as [e |]; cbn;
    [reflexivity |].
  destruct (st !! "darkMode") as [text |]; cbn; [| reflexivity].
  destruct (JSON_parse parse_other text) as [e | v]; reflexivity.
Qed.

Lemma onToggleSwitch_keeps_store (v : JSValue) (set_fault : option Error) (w : World) :
  db (snd (run (onToggleSwitch v set_fault) w)) = db w.
Proof.
  destruct w as [sw ld loc th st d con al]. destruct set_fault as [e |]; reflexivity.
Qed.

Lemma operate_ok (w : World) (op : Operation) : store_ok (db w) -> store_ok (db (operate w op)).
Proof.
  intros Hok. pose proof Hok as [Htxn Hrows].
  destruct op as [f | f lat lon | f | env | parse_other get_fault | set_fault];
    cbn [operate].
  - pose proof (createTable_summary f w Htxn) as H.
    destruct (run (createTable f) w) as [[e | v] w']; cbn [snd].
    + destruct H as (_ & ->). exact Hok.
    + destruct H as (Htxn' & _ & _ & Htb).
      destruct (tables (db w) !! "locations") as [t |] eqn:Ht.
      * replace (db w') with (db w); [exact Hok |].
        destruct (db w'), (db w); simpl in *; congruence.
      * replace (db w') with {| tables := <["locations" := {| rows := []; sequence := 0 |}]> (tables (db w)); txn := None |}.
        { apply store_ok_created; assumption. }
        destruct (db w'); simpl in *; congruence.
  - pose proof (saveLocation_summary f lat lon w Htxn) as H.
    destruct (run (saveLocation f lat lon) w) as [[e | v] w']; cbn [snd].
    + destruct H as (_ & _ & _ & -> & _). exact Hok.
    + destruct H as (_ & _ & _ & _ & t & Ht & _ & -> & _).
      apply store_ok_inserted; assumption.
  - pose proof (loadLocations_summary f w Htxn) as H.
    destruct (run (loadLocations f) w) as [o w']; cbn [snd].
    destruct H as (-> & _). exact Hok.
  - pose proof (getLocation_summary (isLoading w) env w) as H.
    destruct (run (getLocation (isLoading w) env) w) as [o w']; cbn [snd].
    destruct H as (_ & _ & H).
    destruct (capture_failure env w) as [p |].
    + destruct H as (_ & _ & Hearly & Hlate).
      destruct p;
        try (destruct Hearly as (_ & Hdb & _); [discriminate |]; rewrite (Hdb Htxn); exact Hok).
      destruct (Hlate eq_refl) as (t & c & _ & _ & Ht & ->).
      apply store_ok_inserted; assumption.
    + destruct H as (t & c & _ & _ & Ht & -> & _).
      apply store_ok_inserted; assumption.
  - rewrite loadDarkMode_keeps_store. exact Hok.
  - rewrite onToggleSwitch_keeps_store. exact Hok.
Qed.


(** Between two calls the table lists its rows as a walk gives them. *)
Lemma store_ok_scan (d : Database) (t : Table) :
  store_ok d -> tables d !! "locations" = Some t -> table_scan t = rows t.
Proof.
  intros [_ Hok] Ht. destruct (Hok t Ht) as [Hids _].
  apply sort_rows_ascending.
  assert (Hasc : ascending (rows t)).
  { apply ascending_of_ids. rewrite Hids. apply ids_upto_sorted. }
  unfold ascending in Hasc. clear Hids.
  induction Hasc as [| r l Hs IH Hall]; constructor; [exact IH |].
  eapply List.Forall_impl; [| exact Hall]. intros y Hy. unfold id_le. cbn in Hy. lia.
Qed.


(** * The event loop: overlapping captures *)

Lemma advance_idem {A : Type} (p : Prog A) (w0 w : World) :
  advance (fst (advance p w0)) w = (fst (advance p w0), w).
Proof.
  revert w0. induction p as [a | e | X op k IH | X op k IH]; intros w0; simpl;
    try reflexivity.
  destruct (op w0) as [o w']. apply IH.
Qed.

Lemma resumes_finished {A : Type} (n : nat) (p : Prog A) (w : World) :
  finished p = true -> resumes n p w = (p, w).
Proof.
  revert p w. induction n as [| n IH]; intros p w Hp; [reflexivity |].
  destruct p; try discriminate Hp; simpl; apply IH; reflexivity.
Qed.

(** Every call comes to its end after finitely many completions, in the
    world that [run] computes. *)
Lemma resumes_reach_end {A : Type} (p : Prog A) (w : World) :
  exists n,
    finished (fst (resumes n (fst (advance p w)) (snd (advance p w)))) = true /\
    snd (resumes n (fst (advance p w)) (snd (advance p w))) = snd (run p w).
Proof.
  revert w. induction p as [a | e | X op k IH | X op k IH]; intros w.
  - exists 0%nat. split; reflexivity.
  - exists 0%nat. split; reflexivity.
  - simpl. destruct (op w) as [o w']. apply IH.
  - destruct (IH (fst (op w)) (snd (op w))) as (n & Hfin & Hw).
    exists (S n). simpl. destruct (op w) as [o w']. simpl in *.
    destruct (advance (k o) w') as [p' w'']. simpl in *. split; assumption.
Qed.

Lemma suspended_reaches_end {A : Type} (q : Prog A) (w0 w : World) :
  exists n,
    finished (fst (resumes n (fst (advance q w0)) w)) = true /\
    snd (resumes n (fst (advance q w0)) w) = snd (run (fst (advance q w0)) w).
Proof.
  destruct (resumes_reach_end (fst (advance q w0)) w) as (n & Hfin & Hw).
  rewrite advance_idem in Hfin, Hw. exists n. split; assumption.
Qed.

Lemma loop_run_app (s : Loop) (evs1 evs2 : list Event) :
  loop_run s (evs1 ++ evs2) = loop_run (loop_run s evs1) evs2.
Proof. apply foldl_app. Qed.

Lemma loop_completes (n : nat) (i : nat) (s : Loop) (p : Prog JSValue) :
  pending s !! i = Some p ->
  loop_run s (replicate n (completes i)) =
  {| world := snd (resumes n p (world s));
     pending := <[i := fst (resumes n p (world s))]> (pending s) |}.
Proof.
  revert s p. induction n as [| n IH]; intros s p Hp.
  - simpl. rewrite list_insert_id by exact Hp. destruct s; reflexivity.
  - cbn [replicate]. unfold loop_run in *. cbn [foldl]. 
    unfold loop_step at 2. rewrite Hp.
    destruct (resume p (world s)) as [p' w'] eqn:Hres.
    rewrite (IH _ p').
    + cbn [world pending resumes]. rewrite Hres. rewrite list_insert_insert_eq. reflexivity.
    + cbn [pending]. apply list_lookup_insert_eq. apply lookup_lt_Some in Hp. exact Hp.
Qed.

Lemma max_rowid_nonneg (l : list Row) : 0 <= max_rowid l.
Proof. unfold max_rowid. induction l as [| r l IH]; simpl; lia. Qed.

Lemma max_rowid_ge (l : list Row) (i : Z) : In i (map id l) -> i <= max_rowid l.
Proof.
  unfold max_rowid. induction l as [| r l IH]; simpl; [tauto |].
  intros [<- | Hi]; [lia |]. specialize (IH Hi). lia.
Qed.

Lemma last_rowid_insert (t : Table) (lat lon : float) :
  last_rowid (table_insert t lat lon) = last_rowid t + 1.
Proof.
  unfold last_rowid at 1. unfold table_insert. cbn [rows sequence].
  apply Z.max_l. apply max_rowid_le.
  - pose proof (max_rowid_nonneg (rows t)). unfold last_rowid. lia.
  - intros i. rewrite map_app, in_app_iff. cbn. intros [Hi | [<- | []]]; [| lia].
    apply max_rowid_ge in Hi. unfold last_rowid. lia.
Qed.

Lemma getLocation_starts (b : bool) (env : CaptureEnv) (w : World) :
  finished (fst (advance (getLocation b env) w)) = false /\
  isLoading (snd (advance (getLocation b env) w)) = true /\
  db (snd (advance (getLocation b env) w)) = db w /\
  console (snd (advance (getLocation b env) w)) = (console w ++ start_entries)%list.
Proof.
  destruct w as [sw ld loc th st d con al]. cbn.
  rewrite <- app_assoc. repeat split.
Qed.

Lemma capture_failure_granted (lat lon : float) (w : World) (t : Table) :
  txn (db w) = None ->
  tables (db w) !! "locations" = Some t ->
  last_rowid t < MAX_ROWID ->
  capture_failure (granted_at lat lon) w = None.
Proof.
  intros Htxn Ht Hroom. break_world w. subst.
  apply Z.leb_gt in Hroom.
  unfold capture_failure. cbn. unfold_sql. cbn. rewrite Ht, Hroom. cbn.
  rewrite lookup_insert_eq. reflexivity.
Qed.

(** C5, as the code has it. [getLocation] has no re-entrancy guard: in
    every state of the event loop, whatever calls are pending and however
    far they have come (loading flag up or not), and whatever the platform
    is going to answer, a press is neither rejected nor queued: the new call
    starts at once, puts the loading flag up, writes its first console
    lines and is suspended on its own permission request, the calls already
    pending being left as they are.  When two presses follow each other and
    the awaited platform calls of the first complete before those of the
    second, both calls finish, the loading flag is down, and each has
    inserted its own record: two presses, two records. *)
Theorem second_capture_starts_at_once :
  (forall (s : Loop) (env : CaptureEnv),
     let s' := loop_step s (onPress env) in
     exists p,
       pending s' = (pending s ++ [p])%list /\
       finished p = false /\
       isLoading (world s') = true /\
       db (world s') = db (world s) /\
       console (world s') = (console (world s) ++ start_entries)%list) /\
  (forall (w : World) (t : Table) (lat1 lon1 lat2 lon2 : float),
     txn (db w) = None ->
     tables (db w) !! "locations" = Some t ->
     last_rowid t + 1 < MAX_ROWID ->
     let s1 := loop_step (idle w) (onPress (granted_at lat1 lon1)) in
     let s2 := loop_step s1 (onPress (granted_at lat2 lon2)) in
     isLoading (world s1) = true /\
     map finished (pending s1) = [false] /\
     map finished (pending s2) = [false; false] /\
     console (world s2) = (console (world s1) ++ start_entries)%list /\
     exists n1 n2,
       let s := loop_run s2 (replicate n1 (completes 0) ++ replicate n2 (completes 1)) in
       map finished (pending s) = [true; true] /\
       isLoading (world s) = false /\
       stored_rows (db (world s)) =
         Some (table_scan t ++
                 [ {| id := last_rowid t + 1;
                      latitude := sql_real lat1; longitude := sql_real lon1 |};
                   {| id := last_rowid t + 2;
                      latitude := sql_real lat2; longitude := sql_real lon2 |} ])%list).
Proof.
  split.
  { intros s env s'. subst s'. unfold loop_step.
    destruct (getLocation_starts (isLoading (world s)) env (world s)) as (Hf & Hld & Hdb & Hcon).
    destruct (advance (getLocation (isLoading (world s)) env) (world s)) as [p w'].
    cbn [fst snd world pending] in *.
    exists p. repeat split; assumption. }
  intros w t lat1 lon1 lat2 lon2.
  intros Htxn Ht Hroom s1 s2. subst s1 s2. unfold idle, loop_step. cbn [world pending app].
  destruct (getLocation_starts (isLoading w) (granted_at lat1 lon1) w) as (Hf1 & Hld1 & Hdb1 & Hcon1).
  destruct (advance (getLocation (isLoading w) (granted_at lat1 lon1)) w) as [p1 w1] eqn:Hadv1.
  cbn [fst snd world pending] in *.
  destruct (getLocation_starts (isLoading w1) (granted_at lat2 lon2) w1) as (Hf2 & Hld2 & Hdb2 & Hcon2).
  destruct (advance (getLocation (isLoading w1) (granted_at lat2 lon2)) w1) as [p2 w2] eqn:Hadv2.
  cbn [fst snd world pending app map] in *.
  rewrite Hf1, Hf2.
  do 4 (split; [assumption || reflexivity |]).
  (* the first call runs to its end *)
  assert (Hp1 : p1 = fst (advance (getLocation (isLoading w) (granted_at lat1 lon1)) w)) by (rewrite Hadv1; reflexivity).
  assert (Hp2 : p2 = fst (advance (getLocation (isLoading w1) (granted_at lat2 lon2)) w1)) by (rewrite Hadv2; reflexivity).
  destruct (suspended_reaches_end (getLocation (isLoading w) (granted_at lat1 lon1)) w w2)
    as (n1 & Hend1 & Hw1).
  rewrite <- Hp1 in Hend1, Hw1.
  pose proof (getLocation_resumed_summary (isLoading w) (granted_at lat1 lon1) w w2) as Hsum1.
  rewrite <- Hp1 in Hsum1.
  rewrite (capture_failure_granted lat1 lon1 w2 t) in Hsum1;
    [| congruence | congruence | lia].
  destruct (run p1 w2) as [o1 wa] eqn:Hrun1. cbn [snd] in Hw1.
  destruct Hsum1 as (_ & _ & t1 & c1 & Hc1 & _ & Ht1 & Hdba & _).
  injection Hc1 as <-. cbn [coords_latitude coords_longitude] in Hdba.
  assert (t1 = t) as -> by congruence.
  (* the second call runs to its end *)
  destruct (suspended_reaches_end (getLocation (isLoading w1) (granted_at lat2 lon2)) w1 wa)
    as (n2 & Hend2 & Hw2).
  rewrite <- Hp2 in Hend2, Hw2.
  pose proof (getLocation_resumed_summary (isLoading w1) (granted_at lat2 lon2) w1 wa) as Hsum2.
  rewrite <- Hp2 in Hsum2.
  rewrite (capture_failure_granted lat2 lon2 wa (table_insert t lat1 lon1)) in Hsum2.
  2: { rewrite Hdba. reflexivity. }
  2: { rewrite Hdba. cbn. rewrite Hdb2, Hdb1. apply lookup_insert_eq. }
  2: { rewrite last_rowid_insert. lia. }
  destruct (run p2 wa) as [o2 wb] eqn:Hrun2. cbn [snd] in Hw2.
  destruct Hsum2 as (_ & Hldb & t2 & c2 & Hc2 & _ & Ht2 & Hdbb & _).
  injection Hc2 as <-. cbn [coords_latitude coords_longitude] in Hdbb.
  exists n1, n2. cbn zeta.
  rewrite loop_run_app.
  rewrite (loop_completes n1 0 _ p1) by reflexivity. cbn [world pending].
  rewrite (loop_completes n2 1 _ p2) by reflexivity. cbn [world pending].
  rewrite Hw1, Hw2.
  split; [simpl; rewrite Hend1, Hend2; reflexivity |].
  split; [exact Hldb |].
  rewrite Hdba in Ht2. cbn [tables] in Ht2. rewrite lookup_insert_eq in Ht2.
  injection Ht2 as <-.
  unfold stored_rows. rewrite Hdbb. cbn [tables]. rewrite lookup_insert_eq.
  cbn [fmap option_fmap option_map].
  rewrite !table_scan_insert, last_rowid_insert.
  rewrite <- app_assoc. cbn [app].
  replace (last_rowid t + 1 + 1) with (last_rowid t + 2) by lia. reflexivity.
Qed.

(** * The theorems at work, and where the specification departs from the code *)

(** A first capture on a fresh installation. *)
Lemma capture_success_adds_one_record_witness :
  capture_failure (granted_at 37.422 (-122.084)) installed_World = None /\
  exists (before : list Row) (r : Row),
    locations (snd (run (loadLocations no_faults) installed_World)) = Some before /\
    locations (snd (run (getLocation false (granted_at 37.422 (-122.084))) installed_World))
      = Some (before ++ [r])%list /\
    length (before ++ [r])%list = S (length before) /\
    latitude r = Some 37.422%float /\
    longitude r = Some (-122.084)%float.
Proof.
  split; [vm_compute; reflexivity |].
  destruct (capture_success_adds_one_record false (granted_at 37.422 (-122.084))
              installed_World)
    as (before & r & c & Hc & Hb & Ha & _ & _ & Hlen & _ & _ & Hlat & Hlon & _);
    [vm_compute; reflexivity |].
  injection Hc as <-. exists before, r.
  split; [exact Hb |]. split; [exact Ha |]. split; [exact Hlen |].
  split; [apply Hlat | apply Hlon]; vm_compute; reflexivity.
Defined.

(** C1 as the specification states it fails on a reading that is not a
    number: the capture succeeds, and the record it publishes has [null]
    for the latitude, where the provider returned NaN; the negative zero of
    the longitude comes back as [+0]. *)
Lemma capture_of_nan_publishes_null :
  capture_failure granted_at_nan installed_World = None /\
  position granted_at_nan
    = inr {| coords_latitude := PrimFloat.nan; coords_longitude := (-0)%float |} /\
  locations (snd (run (loadLocations no_faults) installed_World)) = Some [] /\
  locations (snd (run (getLocation false granted_at_nan) installed_World))
    = Some [ {| id := 1; latitude := None; longitude := Some 0%float |} ] /\
  PrimFloat.classify 0 = FloatClass.PZero /\
  PrimFloat.classify (-0) = FloatClass.NZero.
Proof.
  repeat split; vm_compute; reflexivity.
Qed.

(** The permission is denied. *)
Lemma failed_capture_is_handled_witness :
  capture_failure denied installed_World = Some AtPermission /\
  let (o, w') := run (getLocation false denied) installed_World in
  o = inr JUndefined /\
  isLoading w' = false /\
  (exists a, alerts w' = (alerts installed_World ++ [a])%list) /\
  (AtPermission <> AtReload ->
     committed (db w') = committed (db installed_World) /\
     (txn (db installed_World) = None -> db w' = db installed_World)) /\
  (AtPermission = AtReload ->
     exists before r, stored_rows (db installed_World) = Some before /\
                      stored_rows (db w') = Some (before ++ [r])%list).
Proof.
  split; [vm_compute; reflexivity |].
  apply (failed_capture_is_handled false denied installed_World AtPermission).
  vm_compute. reflexivity.
Defined.

(** C4 as the specification states it fails when the failing step is the
    reload: the capture fails, the user is alerted, and the store has the
    new record all the same. *)
Lemma failed_reload_leaves_record_stored :
  capture_failure (reload_fails_at 37.422 (-122.084)) installed_World = Some AtReload /\
  stored_rows (db installed_World) = Some [] /\
  length (alerts (snd (run (getLocation false (reload_fails_at 37.422 (-122.084)))
                         installed_World))) = 1%nat /\
  stored_rows (db (snd (run (getLocation false (reload_fails_at 37.422 (-122.084)))
                          installed_World)))
    = Some [ {| id := 1; latitude := Some 37.422%float;
                longitude := Some (-122.084)%float |} ] /\
  db (snd (run (getLocation false (reload_fails_at 37.422 (-122.084))) installed_World))
    <> db installed_World.
Proof.
  do 4 (split; [vm_compute; reflexivity |]).
  intros Heq. apply (f_equal stored_rows) in Heq. vm_compute in Heq. discriminate Heq.
Qed.

Lemma failed_capture_keeps_published_list_witness :
  capture_failure denied installed_World = Some AtPermission /\
  locations (snd (run (getLocation false denied) installed_World)) = locations installed_World.
Proof.
  split; [vm_compute; reflexivity |].
  apply (proj1 (failed_capture_keeps_published_list false denied installed_World) AtPermission).
  vm_compute. reflexivity.
Defined.

Lemma saveLocation_all_or_nothing_witness :
  txn (db installed_World) = None /\
  let (o, w') := run (saveLocation no_faults 37.422 (-122.084)) installed_World in
  match o with
  | inl e =>
      committed (db w') = committed (db installed_World) /\
      (txn (db installed_World) = None -> db w' = db installed_World) /\
      console w' =
        (console installed_World ++
           [console_error_entry "Erro ao salvar localização:" [LError e]])%list
  | inr v =>
      v = JUndefined /\
      exists before r,
        stored_rows (db installed_World) = Some before /\
        stored_rows (db w') = Some (before ++ [r])%list /\
        latitude r = Some 37.422%float /\ longitude r = Some (-122.084)%float /\
        txn (db w') = None /\
        (forall tbl, tbl <> "locations" ->
           tables (db w') !! tbl = tables (db installed_World) !! tbl) /\
        console w' =
          (console installed_World ++
             [console_log_entry "Localização salva, ID:" [LId (Some (id r))]])%list
  end.
Proof.
  split; [reflexivity |].
  apply (saveLocation_all_or_nothing no_faults 37.422 (-122.084) installed_World).
Defined.

(** C3 as the specification states it fails on the returned value: the
    insert assigns the id 1 and the call returns [undefined]. *)
Lemma saveLocation_returns_undefined :
  stored_rows (db (snd (run (saveLocation no_faults 37.422 (-122.084)) installed_World)))
    = Some [ {| id := 1; latitude := Some 37.422%float;
                longitude := Some (-122.084)%float |} ] /\
  fst (run (saveLocation no_faults 37.422 (-122.084)) installed_World) = inr JUndefined /\
  fst (run (saveLocation no_faults 37.422 (-122.084)) installed_World) <> inr (JNumber 1).
Proof.
  do 2 (split; [vm_compute; reflexivity |]).
  intros Heq. vm_compute in Heq. discriminate Heq.
Qed.

Lemma createTable_idempotent_witness :
  txn (db initial_World) = None /\ (1 < 3)%nat /\
  let (os, w') := call_times (createTable no_faults) 3 initial_World in
  Forall (fun o => o = inr JUndefined) os /\
  length os = 3%nat /\
  db w' = db (snd (run (createTable no_faults) initial_World)) /\
  is_Some (tables (db w') !! "locations") /\
  dom (tables (db w')) = dom (tables (db initial_World)) ∪ {[ "locations" ]} /\
  (tables (db initial_World) = ∅ -> size (tables (db w')) = 1%nat) /\
  (forall t, tables (db initial_World) !! "locations" = Some t -> db w' = db initial_World).
Proof.
  split; [reflexivity |]. split; [lia |].
  apply (createTable_idempotent 3 initial_World); [reflexivity | lia].
Defined.

Lemma darkMode_round_trip_witness :
  ToBoolean (isSwitchOn initial_World) = negb true /\
  storage initial_World !! "darkMode" = None /\
  isSwitchOn
    (snd (run (loadDarkMode reject_other None)
            (fresh_session (snd (run (onToggleSwitch (isSwitchOn initial_World) None)
                                   initial_World)))))
    = JBool true /\
  isSwitchOn (snd (run (loadDarkMode reject_other None) (fresh_session initial_World)))
    = JBool false.
Proof.
  split; [reflexivity |]. split; [reflexivity |]. split.
  - apply (proj1 (darkMode_round_trip reject_other initial_World) true). reflexivity.
  - apply (proj2 (darkMode_round_trip reject_other initial_World) None). reflexivity.
Defined.

(** C8 as the specification states it fails on the fallback: the flag was
    off, the toggle turns it on, the write fails, and the flag stays on, the
    theme dark. *)
Lemma toggle_write_failure_stays_dark :
  isSwitchOn initial_World = JBool false /\
  storage (snd (run (onToggleSwitch (isSwitchOn initial_World) (Some io_error)) initial_World))
    !! "darkMode" = None /\
  isSwitchOn (snd (run (onToggleSwitch (isSwitchOn initial_World) (Some io_error))
                     initial_World)) = JBool true /\
  theme (themeEffect (snd (run (onToggleSwitch (isSwitchOn initial_World) (Some io_error))
                             initial_World))) = myColorsDark /\
  theme (themeEffect (snd (run (onToggleSwitch (isSwitchOn initial_World) (Some io_error))
                             initial_World))) <> myColors.
Proof.
  do 4 (split; [vm_compute; reflexivity |]).
  intros Heq. vm_compute in Heq. discriminate Heq.
Qed.

Lemma loadDarkMode_absent_or_unparsable_witness :
  (storage corrupt_preference_World !! "darkMode" = None \/
   exists text err, storage corrupt_preference_World !! "darkMode" = Some text /\
                    JSON_parse reject_other text = inl err) /\
  let (o, w') := run (loadDarkMode reject_other None) corrupt_preference_World in
  o = inr JUndefined /\
  isSwitchOn w' = isSwitchOn corrupt_preference_World /\
  isSwitchOn (snd (run (loadDarkMode reject_other None)
                     (fresh_session corrupt_preference_World))) = JBool false /\
  console w' =
    match @None Error, storage corrupt_preference_World !! "darkMode" with
    | None, None => console corrupt_preference_World
    | _, _ =>
        (console corrupt_preference_World ++
           [console_error_entry "Failed to load dark mode." []])%list
    end.
Proof.
  assert (H : storage corrupt_preference_World !! "darkMode" = None \/
              exists text err, storage corrupt_preference_World !! "darkMode" = Some text /\
                               JSON_parse reject_other text = inl err).
  { right. exists "{dark", {| name := "SyntaxError"; message := "Unexpected token in JSON" |}.
    split; reflexivity. }
  split; [exact H |].
  apply (loadDarkMode_absent_or_unparsable reject_other None corrupt_preference_World H).
Defined.


Lemma second_capture_starts_at_once_witness :
  txn (db installed_World) = None /\
  tables (db installed_World) !! "locations" = Some {| rows := []; sequence := 0 |} /\
  last_rowid {| rows := []; sequence := 0 |} + 1 < MAX_ROWID /\
  exists n1 n2,
    stored_rows
      (db (world
             (loop_run
                (loop_step (loop_step (idle installed_World) (onPress (granted_at 1 2)))
                   (onPress (granted_at 3 4)))
                (replicate n1 (completes 0) ++ replicate n2 (completes 1)))))
    = Some [ {| id := 1; latitude := Some 1%float; longitude := Some 2%float |};
             {| id := 2; latitude := Some 3%float; longitude := Some 4%float |} ].
Proof.
  split; [reflexivity |]. split; [vm_compute; reflexivity |]. split; [vm_compute; reflexivity |].
  destruct (proj2 second_capture_starts_at_once installed_World
              {| rows := []; sequence := 0 |} 1%float 2%float 3%float 4%float)
    as (_ & _ & _ & _ & n1 & n2 & _ & _ & Hrows);
    [reflexivity | vm_compute; reflexivity | vm_compute; reflexivity |].
  exists n1, n2. exact Hrows.
Defined.

(** C5 as the specification states it fails: the second press, made while
    the first call is suspended with the loading flag up, starts a second
    call at once; and when their platform calls complete as in
    [colliding_captures], the second call's refused BEGIN rolls back the
    first one's transaction: both calls end in an alert and no record is
    stored, though the platform met no fault. *)
Lemma overlapping_captures_collide :
  isLoading (world (loop_step (idle installed_World) (onPress (granted_at 1 2)))) = true /\
  map finished (pending (loop_step (idle installed_World) (onPress (granted_at 1 2))))
    = [false] /\
  map finished
    (pending (loop_step (loop_step (idle installed_World) (onPress (granted_at 1 2)))
                (onPress (granted_at 3 4))))
    = [false; false] /\
  map finished (pending (loop_run (idle installed_World) colliding_captures)) = [true; true] /\
  stored_rows (db (world (loop_run (idle installed_World) colliding_captures))) = Some [] /\
  map alert_title (alerts (world (loop_run (idle installed_World) colliding_captures)))
    = ["Erro"; "Erro"].
Proof.
  repeat split; vm_compute; reflexivity.
Qed.

(** * Further properties of the code *)

(** ** What a capture shows and what it leaves alone *)

(** Every path of [getLocation], [tac] closing each. *)
Ltac capture_paths perm pos fs fl tac :=
  destruct perm as [ep | status]; [cbn; tac |];
  destruct (String.eqb status "granted") eqn:Hst;
    [| cbn; rewrite ?Hst; cbn; tac];
  apply String.eqb_eq in Hst; subst status;
  destruct pos as [ep | c]; [cbn; tac |];
  match goal with |- context [mkDatabase _ ?x] => destruct x as [snap |] end;
  (break_faults fs; cbn; unfold_sql; cbn; try tac);
  (lookup_locations; cbn; try tac);
  (match goal with
   | |- context [MAX_ROWID <=? last_rowid ?t] =>
       destruct (MAX_ROWID <=? last_rowid t) eqn:Hmax
   end; cbn; try tac);
  (break_faults fl; cbn; unfold_sql; cbn; rewrite ?lookup_insert_eq; cbn; tac).

(** X1. A capture never touches the dark-mode preference: whatever the
    platform answers and whatever the store is in, [getLocation] leaves the
    key-value storage, the switch and the theme as they were. *)
Theorem getLocation_leaves_preference_alone (b : bool) (env : CaptureEnv) (w : World) :
  let (o, w') := run (getLocation b env) w in
  storage w' = storage w /\ isSwitchOn w' = isSwitchOn w /\ theme w' = theme w.
Proof.
  destruct env as [perm pos fs fl]. break_world w.
  capture_paths perm pos fs fl ltac:(solve [repeat split]).
Qed.

(** X2. Every permission status other than ['granted'] (['denied'],
    ['undetermined'], ...) ends the capture at once: the permission alert is
    shown, the position is never asked for (the console has the status line
    and then the closing line only), the store and the published list are
    as they were, and the loading flag is down.  The closing line logs the
    [isLoading] of the render the call was started from, not [false]. *)
Theorem not_granted_stops_at_permission
    (b : bool) (env : CaptureEnv) (w : World) (status : string) :
  permission env = inr status ->
  status <> "granted" ->
  let (o, w') := run (getLocation b env) w in
  o = inr JUndefined /\
  alerts w' = (alerts w ++ [permission_alert])%list /\
  console w' =
    (console w ++ start_entries ++
       [ console_log_entry "Status da permissão:" [LString status]; finishing_entry b ])%list /\
  db w' = db w /\ locations w' = locations w /\ isLoading w' = false.
Proof.
  intros Hperm Hne. destruct env as [perm pos fs fl]. cbn in Hperm. subst perm.
  apply String.eqb_neq in Hne.
  destruct w as [sw ld loc th st d con al]. cbn. rewrite Hne. cbn.
  rewrite <- !app_assoc. repeat split.
Qed.

(** X3. When the permission request is rejected, or the permission is
    granted and the position reading fails, the user is shown the error
    alert with the details of that very error ([error.message], or the
    error printed when it has no message); the store and the published list
    are as they were and the loading flag is down. *)
Theorem provider_error_is_reported (b : bool) (env : CaptureEnv) (w : World) (e : Error) :
  permission env = inl e \/ (permission env = inr "granted" /\ position env = inl e) ->
  let (o, w') := run (getLocation b env) w in
  o = inr JUndefined /\
  alerts w' = (alerts w ++ [error_alert e])%list /\
  db w' = db w /\ locations w' = locations w /\ isLoading w' = false.
Proof.
  intros H. destruct env as [perm pos fs fl]. cbn in H.
  destruct w as [sw ld loc th st d con al].
  destruct H as [-> | [-> ->]]; cbn; repeat split.
Qed.


(** X5. As long as the [locations] table does not exist (the un-awaited
    [createTable] of the start has not committed, or has failed),
    [loadLocations] and [saveLocation] are rejected with SQLite's "no such
    table" error and change nothing, and a capture with the permission
    granted and the position read ends with this error in the alert, no
    record stored and the list as it was. *)
Theorem without_table_everything_fails (b : bool) (lat lon : float) (w : World) :
  txn (db w) = None ->
  tables (db w) !! "locations" = None ->
  let no_table := SQLiteError "no such table: locations" in
  (let (o, w') := run (loadLocations no_faults) w in
   o = inl no_table /\ db w' = db w /\ locations w' = locations w) /\
  (let (o, w') := run (saveLocation no_faults lat lon) w in
   o = inl no_table /\ db w' = db w) /\
  (let (o, w') := run (getLocation b (granted_at lat lon)) w in
   alerts w' = (alerts w ++ [error_alert no_table])%list /\
   db w' = db w /\ locations w' = locations w).
Proof.
  intros Htxn Ht. break_world w. subst.
  cbn. unfold_sql. cbn. rewrite Ht. cbn. repeat split.
Qed.

(** X6. No call leaves a transaction open.  Whatever faults the platform
    meets, [createTable], [saveLocation] and [loadLocations] end with no
    transaction open, even when one was open as they started (their
    ROLLBACK then closes it); and so does [getLocation] when none was open
    as it started. *)
Theorem no_transaction_left_open (w : World) :
  (forall f, txn (db (snd (run (createTable f) w))) = None) /\
  (forall f lat lon, txn (db (snd (run (saveLocation f lat lon) w))) = None) /\
  (forall f, txn (db (snd (run (loadLocations f) w))) = None) /\
  (forall b env, txn (db w) = None -> txn (db (snd (run (getLocation b env) w))) = None).
Proof.
  break_world w.
  match goal with |- context [mkDatabase _ ?x] => destruct x as [snap |] end.
  all: split; [| split; [| split]].
  all: try (intros f; break_faults f; cbn; unfold_sql; cbn;
            try reflexivity; lookup_locations; reflexivity).
  all: try (intros f lat lon; break_faults f; cbn; unfold_sql; cbn;
            try reflexivity; lookup_locations; cbn; try reflexivity;
            destruct (MAX_ROWID <=? last_rowid t); reflexivity).
  - intros b env H. discriminate H.
  - intros b [perm pos fs fl] _.
    destruct perm as [ep | status]; [reflexivity |].
    destruct (String.eqb status "granted") eqn:Hst; [| cbn; rewrite Hst; reflexivity].
    apply String.eqb_eq in Hst. subst status.
    destruct pos as [ep | c]; [reflexivity |].
    break_faults fs; cbn; unfold_sql; cbn; try reflexivity.
    all: lookup_locations; cbn; try reflexivity.
    all: destruct (MAX_ROWID <=? last_rowid t) eqn:Hmax; cbn; try reflexivity.
    break_faults fl; cbn; unfold_sql; cbn; rewrite ?lookup_insert_eq; reflexivity.
Qed.

(** X7. Read-your-write: whenever [saveLocation] is fulfilled, whatever
    the store was in before, the next [loadLocations] that succeeds (and
    with no platform fault it does succeed) publishes the rows the table
    held before followed by one row with the coordinates just saved, as
    the REAL columns keep them ([sql_real]: a number other than zero as it
    is, a zero as [+0], NaN as [null]). *)
Theorem read_your_write (f : TxnFaults) (lat lon : float) (w : World) :
  fst (run (saveLocation f lat lon) w) = inr JUndefined ->
  let w1 := snd (run (saveLocation f lat lon) w) in
  exists before r,
    stored_rows (db w) = Some before /\
    latitude r = sql_real lat /\ longitude r = sql_real lon /\
    fst (run (loadLocations no_faults) w1) = inr JUndefined /\
    locations (snd (run (loadLocations no_faults) w1)) = Some (before ++ [r])%list /\
    (forall f2, fst (run (loadLocations f2) w1) = inr JUndefined ->
                locations (snd (run (loadLocations f2) w1)) = Some (before ++ [r])%list).
Proof.
  intros Hok w1. subst w1.
  pose proof (saveLocation_rolls_back f lat lon w) as Hgen.
  pose proof (saveLocation_summary f lat lon w) as Hsum.
  destruct (run (saveLocation f lat lon) w) as [o w1]. cbn [fst snd] in *. subst o.
  destruct (Hsum Hgen) as (_ & _ & _ & _ & t & Ht & _ & Hdb & _).
  assert (Htxn1 : txn (db w1) = None) by (rewrite Hdb; reflexivity).
  assert (Ht1 : tables (db w1) !! "locations" = Some (table_insert t lat lon)).
  { rewrite Hdb. cbn. apply lookup_insert_eq. }
  exists (table_scan t),
    {| id := last_rowid t + 1; latitude := sql_real lat; longitude := sql_real lon |}.
  split; [unfold stored_rows; rewrite Ht; reflexivity |].
  split; [reflexivity |]. split; [reflexivity |].
  assert (Hany : forall f2, fst (run (loadLocations f2) w1) = inr JUndefined ->
            locations (snd (run (loadLocations f2) w1))
            = Some (table_scan t ++
                      [ {| id := last_rowid t + 1;
                           latitude := sql_real lat; longitude := sql_real lon |} ])%list).
  { intros f2 H2. pose proof (loadLocations_summary f2 w1 Htxn1) as Hl.
    destruct (run (loadLocations f2) w1) as [o2 w2]. cbn [fst snd] in *. subst o2.
    destruct Hl as (_ & _ & _ & _ & t2 & Ht2 & Hloc & _).
    rewrite Ht1 in Ht2. injection Ht2 as <-. rewrite table_scan_insert in Hloc. exact Hloc. }
  pose proof (loadLocations_no_faults w1 _ Htxn1 Ht1) as Hnf.
  split; [exact Hnf |]. split; [apply Hany; exact Hnf | exact Hany].
Qed.

(** X8. A capture shows an alert exactly when one of its steps fails: when
    permission, position, insert and reload all go through the alerts are
    as they were, and otherwise exactly one alert is added. *)
Theorem alert_exactly_on_failure (b : bool) (env : CaptureEnv) (w : World) :
  let w' := snd (run (getLocation b env) w) in
  (capture_failure env w = None <-> alerts w' = alerts w) /\
  (capture_failure env w <> None <-> exists a, alerts w' = (alerts w ++ [a])%list).
Proof.
  intros w'. subst w'.
  pose proof (getLocation_summary b env w) as Hsum.
  destruct (run (getLocation b env) w) as [o w']. cbn [snd].
  destruct Hsum as (_ & _ & Hsum).
  assert (Hne : forall a, alerts w' = (alerts w ++ [a])%list -> alerts w' <> alerts w).
  { intros a Ha Heq. rewrite Heq in Ha. apply (f_equal (@length Alert)) in Ha.
    rewrite length_app in Ha. cbn in Ha. lia. }
  destruct (capture_failure env w) as [p |].
  - destruct Hsum as (_ & [a Ha] & _). split; split.
    + intros H. discriminate H.
    + intros H. exfalso. exact (Hne a Ha H).
    + intros _. exists a. exact Ha.
    + intros _ H. discriminate H.
  - destruct Hsum as (t & c & _ & _ & _ & _ & _ & Hal). split; split.
    + intros _. exact Hal.
    + reflexivity.
    + intros H. contradiction.
    + intros [a Ha]. exfalso. exact (Hne a Ha Hal).
Qed.

(** ** The preference *)

(** X9. Toggling twice, the writes going through, restores the preference:
    after the first toggle the switch and the stored flag are the negation
    of the switch's truth value, after the second they are that truth value
    again, and the theme the effect installs is the one it installed
    before. *)
Theorem toggle_twice (w : World) :
  let w1 := snd (run (onToggleSwitch (isSwitchOn w) None) w) in
  let w2 := snd (run (onToggleSwitch (isSwitchOn w1) None) w1) in
  isSwitchOn w1 = JBool (negb (ToBoolean (isSwitchOn w))) /\
  storage w1 !! "darkMode" = Some (JSON_stringify (negb (ToBoolean (isSwitchOn w)))) /\
  isSwitchOn w2 = JBool (ToBoolean (isSwitchOn w)) /\
  storage w2 !! "darkMode" = Some (JSON_stringify (ToBoolean (isSwitchOn w))) /\
  theme (themeEffect w2) = theme (themeEffect w).
Proof.
  destruct w as [sw ld loc th st d con al]. cbn.
  rewrite !lookup_insert_eq, Bool.negb_involutive.
  repeat split. unfold themeEffect. cbn. destruct (ToBoolean sw); reflexivity.
Qed.

(** X10. [loadDarkMode] installs whatever JSON value the stored text
    parses to, a boolean or not, without any check: the switch state is that
    value, nothing is logged, the theme effect then goes by its truthiness,
    and the next toggle stores the negation of that truthiness. *)
Theorem loadDarkMode_installs_parsed_value
    (parse_other : string -> Outcome JSValue) (text : string) (v : JSValue) (w : World) :
  storage w !! "darkMode" = Some text ->
  JSON_parse parse_other text = inr v ->
  let (o, w') := run (loadDarkMode parse_other None) w in
  o = inr JUndefined /\
  isSwitchOn w' = v /\
  console w' = console w /\
  theme (themeEffect w') = (if ToBoolean v then myColorsDark else myColors) /\
  isSwitchOn (snd (run (onToggleSwitch (isSwitchOn w') None) w')) = JBool (negb (ToBoolean v)).
Proof.
  intros Hst Hp. destruct w as [sw ld loc th st d con al]. cbn in Hst. cbn.
  rewrite Hst. cbn. rewrite Hp. cbn.
  repeat split. unfold themeEffect. cbn. destruct (ToBoolean v); reflexivity.
Qed.

(** X11. The preference path and the record path are independent: loading
    the preference never changes the record store, the published list, the
    alerts, the loading flag or the key-value storage; toggling it never
    changes the record store, the published list, the alerts or the loading
    flag.  This holds whether or not the storage call fails. *)
Theorem preference_leaves_records_alone
    (parse_other : string -> Outcome JSValue) (fault : option Error) (w : World) :
  (let w' := snd (run (loadDarkMode parse_other fault) w) in
   db w' = db w /\ locations w' = locations w /\ alerts w' = alerts w /\
   isLoading w' = isLoading w /\ storage w' = storage w) /\
  (let w' := snd (run (onToggleSwitch (isSwitchOn w) fault) w) in
   db w' = db w /\ locations w' = locations w /\ alerts w' = alerts w /\
   isLoading w' = isLoading w).
Proof.
  destruct w as [sw ld loc th st d con al]. split.
  - destruct fault as [e |]; cbn; [repeat split |].
    destruct (st !! "darkMode") as [text |]; cbn; [| repeat split].
    destruct (JSON_parse parse_other text) as [e | v]; repeat split.
  - destruct fault as [e |]; repeat split.
Qed.

(** ** The schema *)

(** X12. A [createTable] that fails, no transaction being open, is only
    logged: the store, the published list, the alerts and the loading flag
    are as they were (the user is told nothing), and the console has one
    more line, ['Erro ao criar tabela:'] with the error the call is
    rejected with. *)
Theorem createTable_failure_is_only_logged (f : TxnFaults) (w : World) (e : Error) :
  txn (db w) = None ->
  fst (run (createTable f) w) = inl e ->
  let w' := snd (run (createTable f) w) in
  db w' = db w /\ locations w' = locations w /\ alerts w' = alerts w /\
  isLoading w' = isLoading w /\
  console w' = (console w ++ [console_error_entry "Erro ao criar tabela:" [LError e]])%list.
Proof.
  intros Htxn. break_world w. subst.
  break_faults f; cbn; unfold_sql; cbn.
  all: try (intros [= <-]; repeat split).
  all: lookup_locations; cbn; try (intros [= <-]; repeat split); intros H; discriminate H.
Qed.

(** ** The start of the application: [createTable] races with the loading *)

Lemma awaits_le_mono {A : Type} (n m : nat) (p : Prog A) :
  awaits_le n p -> (n <= m)%nat -> awaits_le m p.
Proof.
  intros H. revert m. induction H as [n a | n e | n X op k _ IH | n X op k _ IH]; intros m Hm.
  - constructor.
  - constructor.
  - constructor. intros o. apply IH. exact Hm.
  - destruct m as [| m]; [lia |]. constructor. intros o. apply IH. lia.
Qed.

Lemma awaits_le_bind {A B : Type} (n m : nat) (p : Prog A) (f : A -> Prog B) :
  awaits_le n p -> (forall a, awaits_le m (f a)) -> awaits_le (n + m) (bind p f).
Proof.
  intros H Hf. induction H as [n a | n e | n X op k _ IH | n X op k _ IH]; cbn.
  - apply (awaits_le_mono m); [apply Hf | lia].
  - constructor.
  - constructor. exact IH.
  - constructor. exact IH.
Qed.

Lemma awaits_le_try_catch {A : Type} (n m : nat) (p : Prog A) (h : Error -> Prog A) :
  awaits_le n p -> (forall e, awaits_le m (h e)) -> awaits_le (n + m) (try_catch p h).
Proof.
  intros H Hh. induction H as [n a | n e | n X op k _ IH | n X op k _ IH]; cbn.
  - constructor.
  - apply (awaits_le_mono m); [apply Hh | lia].
  - constructor. exact IH.
  - constructor. exact IH.
Qed.

Lemma awaits_le_settle {X : Type} (o : Outcome X) : awaits_le 0 (settle o).
Proof. destruct o; constructor. Qed.

Lemma awaits_le_call {X : Type} (op : World -> Outcome X * World) : awaits_le 0 (call op).
Proof. constructor. apply awaits_le_settle. Qed.

Lemma awaits_le_await {X : Type} (op : World -> Outcome X * World) : awaits_le 1 (await op).
Proof. constructor. apply awaits_le_settle. Qed.

Lemma awaits_le_withTransaction {A : Type} (f : TxnFaults) (task : Prog A) :
  awaits_le 0 task -> awaits_le 3 (db_withTransactionAsync f task).
Proof.
  intros Ht. unfold db_withTransactionAsync.
  apply (awaits_le_try_catch 2 1).
  - apply (awaits_le_bind 1 1); [apply awaits_le_await |]. intros _.
    apply (awaits_le_bind 0 1); [exact Ht |]. intros a.
    apply (awaits_le_bind 1 0); [apply awaits_le_await |]. intros _. constructor.
  - intros e. apply (awaits_le_bind 1 0); [apply awaits_le_await |]. intros _. constructor.
Qed.

Lemma awaits_le_createTable (f : TxnFaults) : awaits_le 3 (createTable f).
Proof.
  unfold createTable.
  apply (awaits_le_bind 3 0); [| intros; constructor].
  apply (awaits_le_try_catch 3 0).
  - apply (awaits_le_bind 3 0).
    + apply awaits_le_withTransaction. apply awaits_le_call.
    + intros _. apply awaits_le_call.
  - intros e. apply (awaits_le_bind 0 0); [apply awaits_le_call | intros; constructor].
Qed.

Lemma awaits_le_loadLocations (f : TxnFaults) : awaits_le 3 (loadLocations f).
Proof.
  unfold loadLocations.
  apply (awaits_le_bind 3 0); [| intros; constructor].
  apply (awaits_le_try_catch 3 0).
  - apply (awaits_le_bind 3 0).
    + apply awaits_le_withTransaction. apply awaits_le_call.
    + intros l. apply (awaits_le_bind 0 0); [apply awaits_le_call | intros; apply awaits_le_call].
  - intros e. apply (awaits_le_bind 0 0); [apply awaits_le_call | intros; constructor].
Qed.

Lemma awaits_le_loadDarkMode parse_other (gf : option Error) :
  awaits_le 1 (loadDarkMode parse_other gf).
Proof.
  unfold loadDarkMode.
  apply (awaits_le_bind 1 0); [| intros; constructor].
  apply (awaits_le_try_catch 1 0).
  - apply (awaits_le_bind 1 0); [apply awaits_le_await |].
    intros [text |]; [| constructor].
    apply (awaits_le_bind 0 0); [apply awaits_le_settle | intros; apply awaits_le_call].
  - intros e. apply awaits_le_call.
Qed.

Lemma awaits_le_advance {A : Type} (n : nat) (p : Prog A) (w : World) :
  awaits_le n p -> awaits_le n (fst (advance p w)).
Proof.
  intros H. revert w. induction H as [n a | n e | n X op k _ IH | n X op k Hk _]; intros w; cbn.
  - constructor.
  - constructor.
  - destruct (op w) as [o w']. apply IH.
  - constructor. exact Hk.
Qed.

Lemma suspended_advance {A : Type} (p : Prog A) (w : World) : suspended (fst (advance p w)).
Proof.
  revert w. induction p as [a | e | X op k IH | X op k IH]; intros w; cbn; try exact I.
  destruct (op w) as [o w']. apply IH.
Qed.

Lemma awaits_le_Await_inv {A : Type} (n : nat) (p : Prog A) :
  awaits_le n p ->
  match p with
  | Await op k =>
      match n with
      | S n' => forall o, awaits_le n' (k o)
      | O => False
      end
  | _ => True
  end.
Proof. intros H. destruct H; cbn; auto. Qed.

Lemma awaits_le_resume {A : Type} (n : nat) (p : Prog A) (w : World) :
  suspended p -> awaits_le (S n) p -> awaits_le n (fst (resume p w)).
Proof.
  intros Hs H. destruct p as [a | e | X op k | X op k]; cbn.
  - constructor.
  - constructor.
  - destruct Hs.
  - pose proof (awaits_le_Await_inv _ _ H) as Hk. cbn in Hk.
    destruct (op w) as [o w']. apply awaits_le_advance. apply Hk.
Qed.

Lemma suspended_resume {A : Type} (p : Prog A) (w : World) :
  suspended p -> suspended (fst (resume p w)).
Proof.
  intros Hs. destruct p as [a | e | X op k | X op k]; cbn; try exact I.
  - destruct Hs.
  - destruct (op w) as [o w']. apply suspended_advance.
Qed.

Lemma awaits_le_0_finished {A : Type} (p : Prog A) :
  suspended p -> awaits_le 0 p -> finished p = true.
Proof.
  intros Hs H. destruct p as [a | e | X op k | X op k]; try reflexivity.
  - destruct Hs.
  - apply awaits_le_Await_inv in H. destruct H.
Qed.

Lemma resume_finished {A : Type} (p : Prog A) (w : World) :
  finished p = true -> resume p w = (p, w).
Proof. destruct p; try discriminate; reflexivity. Qed.

(** A completion for a call that is over, or for no call at all, changes
    nothing. *)
Lemma completes_finished (s : Loop) (i : nat) :
  match pending s !! i with
  | Some p => finished p = true
  | None => True
  end ->
  loop_step s (completes i) = s.
Proof.
  intros H. unfold loop_step. destruct (pending s !! i) as [p |] eqn:Hp; [| reflexivity].
  rewrite (resume_finished p _ H). rewrite list_insert_id by exact Hp.
  destruct s; reflexivity.
Qed.

Lemma interleavings_nil (fuel a b : nat) : In [] (interleavings fuel a b).
Proof. destruct fuel; left; reflexivity. Qed.

Lemma interleavings_cons0 (fuel a b : nat) (sch : list nat) :
  In sch (interleavings fuel a b) -> In (0%nat :: sch) (interleavings (S fuel) (S a) b).
Proof.
  intros H. cbn [interleavings]. right. apply in_or_app. left. apply in_map. exact H.
Qed.

Lemma interleavings_cons1 (fuel a b : nat) (sch : list nat) :
  In sch (interleavings fuel a b) -> In (1%nat :: sch) (interleavings (S fuel) a (S b)).
Proof.
  intros H. cbn [interleavings]. right. apply in_or_app. right. apply in_map. exact H.
Qed.

Lemma completes_first (w : World) (p0 p1 : Prog JSValue) :
  loop_step {| world := w; pending := [p0; p1] |} (completes 0)
  = {| world := snd (resume p0 w); pending := [fst (resume p0 w); p1] |}.
Proof. unfold loop_step. cbn. destruct (resume p0 w); reflexivity. Qed.

Lemma completes_second (w : World) (p0 p1 : Prog JSValue) :
  loop_step {| world := w; pending := [p0; p1] |} (completes 1)
  = {| world := snd (resume p1 w); pending := [p0; fst (resume p1 w)] |}.
Proof. unfold loop_step. cbn. destruct (resume p1 w); reflexivity. Qed.

Lemma loop_run_cons (s : Loop) (ev : Event) (evs : list Event) :
  loop_run s (ev :: evs) = loop_run (loop_step s ev) evs.
Proof. reflexivity. Qed.

(** Two pending calls that need at most [a] and [b] more completions: any
    order of completions does what one of the interleavings of at most [a]
    completions of the first and [b] of the second does. *)
Lemma two_calls_interleave (sch : list nat) :
  forall (a b : nat) (w : World) (p0 p1 : Prog JSValue),
    suspended p0 -> awaits_le a p0 ->
    suspended p1 -> awaits_le b p1 ->
    exists sch',
      In sch' (interleavings (a + b) a b) /\
      loop_run {| world := w; pending := [p0; p1] |} (map completes sch)
      = loop_run {| world := w; pending := [p0; p1] |} (map completes sch').
Proof.
  induction sch as [| i sch IH]; intros a b w p0 p1 Hs0 H0 Hs1 H1.
  - exists []. split; [apply interleavings_nil | reflexivity].
  - cbn [map]. rewrite loop_run_cons.
    destruct i as [| [| i]].
    + (* the first call *)
      destruct a as [| a].
      * rewrite completes_finished
          by (cbn; apply awaits_le_0_finished; assumption).
        apply IH; assumption.
      * rewrite completes_first.
        destruct (IH a b (snd (resume p0 w)) (fst (resume p0 w)) p1) as (sch' & Hin & Heq);
          [apply suspended_resume; exact Hs0 | apply awaits_le_resume; assumption
          | exact Hs1 | exact H1 |].
        exists (0%nat :: sch'). split.
        -- change (S a + b)%nat with (S (a + b)). apply interleavings_cons0. exact Hin.
        -- cbn [map]. rewrite loop_run_cons, completes_first. exact Heq.
    + (* the second call *)
      destruct b as [| b].
      * rewrite completes_finished
          by (cbn; apply awaits_le_0_finished; assumption).
        apply IH; assumption.
      * rewrite completes_second.
        destruct (IH a b (snd (resume p1 w)) p0 (fst (resume p1 w))) as (sch' & Hin & Heq);
          [exact Hs0 | exact H0
          | apply suspended_resume; exact Hs1 | apply awaits_le_resume; assumption |].
        exists (1%nat :: sch'). split.
        -- replace (a + S b)%nat with (S (a + b)) by lia. apply interleavings_cons1. exact Hin.
        -- cbn [map]. rewrite loop_run_cons, completes_second. exact Heq.
    + (* no such call *)
      rewrite completes_finished by (cbn; exact I).
      apply IH; assumption.
Qed.

Ltac startup_case :=
  cbv beta zeta;
  intros Hfin; vm_compute in Hfin;
  first
    [ discriminate Hfin
    | clear Hfin; vm_compute;
      (split; [reflexivity |]); (split; [reflexivity |]); (split; [reflexivity |]);
      (split; [reflexivity |]);
      (split; [first [ left; reflexivity | right; repeat split; eexists; reflexivity ] |]);
      (split; [first [ intros _; reflexivity | intros Hc; discriminate Hc ] |]);
      first [ left; repeat split; reflexivity
            | right; split; [reflexivity | eexists; reflexivity] ] ].

Lemma startup_interleavings (parse_other : string -> Outcome JSValue)
    (pref : option bool) (t : option Table) :
  Forall
    (fun sch =>
       let s := loop_run
                  (initializeData parse_other no_faults None no_faults
                     (idle (startup_World pref t)))
                  (map completes sch) in
       forallb finished (pending s) = true -> after_startup pref t s)
    (interleavings 7 3 4).
Proof.
  destruct pref as [[|] |], t as [tb |].
  all: let l := eval vm_compute in (interleavings 7 3 4) in
       change (interleavings 7 3 4) with l.
  all: repeat (apply List.Forall_cons; [solve [startup_case] |]).
  all: apply List.Forall_nil.
Qed.

Lemma awaits_le_initialize parse_other (gf : option Error) (fl : TxnFaults) :
  awaits_le 4 (loadDarkMode parse_other gf ;; loadLocations fl ;; Ret JUndefined).
Proof.
  apply (awaits_le_bind 1 3); [apply awaits_le_loadDarkMode |].
  intros _. replace 3%nat with (3 + 0)%nat by reflexivity.
  apply (awaits_le_bind 3 0); [apply awaits_le_loadLocations |].
  intros _. constructor.
Qed.

Lemma initializeData_shape parse_other fc gf fl (w : World) :
  exists w' p0 p1,
    initializeData parse_other fc gf fl (idle w) = {| world := w'; pending := [p0; p1] |} /\
    suspended p0 /\ awaits_le 3 p0 /\ suspended p1 /\ awaits_le 4 p1.
Proof.
  unfold initializeData, idle. cbn [world pending app].
  pose proof (suspended_advance (createTable fc) w) as Hs0.
  pose proof (awaits_le_advance 3 (createTable fc) w (awaits_le_createTable fc)) as Ha0.
  destruct (advance (createTable fc) w) as [p0 w0]. cbn [fst] in *.
  pose proof (suspended_advance (loadDarkMode parse_other gf ;; loadLocations fl ;; Ret JUndefined) w0) as Hs1.
  pose proof (awaits_le_advance 4 _ w0 (awaits_le_initialize parse_other gf fl)) as Ha1.
  destruct (advance (loadDarkMode parse_other gf ;; loadLocations fl ;; Ret JUndefined) w0) as [p1 w1].
  cbn [fst] in *.
  exists w1, p0, p1. repeat split; assumption.
Qed.

(** X13. The start of the application, the platform meeting no fault,
    whatever preference and table an earlier session left and in whatever
    order the awaited platform calls of the un-awaited [createTable] and of
    [loadDarkMode]/[loadLocations] complete: once both calls are over, no
    alert was shown, the loading flag is down, no transaction is open, the
    stored preference is installed, and the records of earlier sessions are
    all in the store.  But the list is loaded (with exactly the stored rows)
    only if [initializeData] was not rejected; otherwise it stays [null]
    with nothing shown to the user; and on a first start [createTable]
    itself can be rejected and leave no table. *)
Theorem startup_any_order (parse_other : string -> Outcome JSValue)
    (pref : option bool) (t : option Table) (sch : list nat) :
  let s := loop_run
             (initializeData parse_other no_faults None no_faults
                (idle (startup_World pref t)))
             (map completes sch) in
  forallb finished (pending s) = true -> after_startup pref t s.
Proof.
  intros s. subst s.
  pose proof (startup_interleavings parse_other pref t) as Hall.
  rewrite List.Forall_forall in Hall.
  destruct (initializeData_shape parse_other no_faults None no_faults (startup_World pref t))
    as (w & p0 & p1 & Heq & Hs0 & Ha0 & Hs1 & Ha1).
  destruct (two_calls_interleave sch 3 4 w p0 p1 Hs0 Ha0 Hs1 Ha1) as (sch' & Hin & Hrun).
  specialize (Hall sch' Hin). cbv beta zeta in Hall.
  rewrite Heq in Hall |- *. rewrite Hrun. exact Hall.
Qed.

(** X14. Which of the two happens depends on the order alone.  When the
    three statements of [createTable] complete first, the list is loaded
    with the stored rows.  When the completions come in this order: the
    reading of the preference, the BEGIN of [createTable], the BEGIN of
    [loadLocations] (refused inside the open transaction), the COMMIT of
    [createTable], the ROLLBACK of [loadLocations] (which finds no
    transaction), then the table exists and holds the stored rows, but the
    list stays [null], [initializeData] is rejected with the error of the
    failed ROLLBACK, and no alert is shown. *)
Theorem startup_outcome_depends_on_order (parse_other : string -> Outcome JSValue)
    (pref : option bool) (t : option Table) :
  let start := initializeData parse_other no_faults None no_faults
                 (idle (startup_World pref t)) in
  let s1 := loop_run start (map completes [0; 0; 0; 1; 1; 1; 1]%nat) in
  let s2 := loop_run start (map completes [1; 0; 1; 0; 1]%nat) in
  (pending s1 = [Ret JUndefined; Ret JUndefined] /\
   locations (world s1) = Some (startup_rows t) /\
   stored_rows (db (world s1)) = Some (startup_rows t)) /\
  (pending s2 = [Ret JUndefined;
                 Throw (SQLiteError "cannot rollback - no transaction is active")] /\
   locations (world s2) = None /\
   stored_rows (db (world s2)) = Some (startup_rows t) /\
   alerts (world s2) = []).
Proof.
  destruct pref as [[|] |], t as [tb |]; vm_compute; repeat split.
Qed.

(** ** The loading flag under overlapping captures *)

(** X15. The loading flag is shared by all pending captures and is not a
    count: after two presses in a row, whatever the platform answers to
    either, the flag is up, and as soon as the first call is over its
    [finally] block puts the flag down although the second call is still
    pending. *)
Theorem spinner_stops_while_second_capture_pending (w : World) (env1 env2 : CaptureEnv) :
  let s2 := loop_run (idle w) [onPress env1; onPress env2] in
  isLoading (world s2) = true /\
  exists n1,
    let s := loop_run s2 (replicate n1 (completes 0)) in
    map finished (pending s) = [true; false] /\
    isLoading (world s) = false.
Proof.
  intros s2. subst s2. unfold idle, loop_run. cbn [foldl]. unfold loop_step.
  cbn [world pending app].
  destruct (getLocation_starts (isLoading w) env1 w) as (Hf1 & Hld1 & _).
  destruct (advance (getLocation (isLoading w) env1) w) as [p1 w1] eqn:Hadv1.
  cbn [fst snd world pending] in *.
  destruct (getLocation_starts (isLoading w1) env2 w1) as (Hf2 & Hld2 & _).
  destruct (advance (getLocation (isLoading w1) env2) w1) as [p2 w2] eqn:Hadv2.
  cbn [fst snd world pending app] in *.
  split; [exact Hld2 |].
  assert (Hp1 : p1 = fst (advance (getLocation (isLoading w) env1) w))
    by (rewrite Hadv1; reflexivity).
  destruct (suspended_reaches_end (getLocation (isLoading w) env1) w w2) as (n1 & Hend1 & Hw1).
  rewrite <- Hp1 in Hend1, Hw1.
  pose proof (getLocation_resumed_summary (isLoading w) env1 w w2) as Hsum1.
  rewrite <- Hp1 in Hsum1.
  destruct (run p1 w2) as [o1 wa]. cbn [snd] in Hw1.
  destruct Hsum1 as (_ & Hlda & _).
  exists n1. cbn zeta.
  change (foldl loop_step ?s ?l) with (loop_run s l).
  rewrite (loop_completes n1 0 _ p1) by reflexivity. cbn [world pending].
  rewrite Hw1. split; [| exact Hlda].
  simpl. rewrite Hend1, Hf2. reflexivity.
Qed.

(** ** The published list *)

Lemma createTable_keeps_locations (f : TxnFaults) (w : World) :
  locations (snd (run (createTable f) w)) = locations w.
Proof.
  break_world w.
  match goal with |- context [mkDatabase _ ?x] => destruct x as [snap |] end.
  all: break_faults f; cbn; unfold_sql; cbn; try reflexivity.
  all: lookup_locations; reflexivity.
Qed.

Lemma loadDarkMode_keeps_locations
    (parse_other : string -> Outcome JSValue) (get_fault : option Error) (w : World) :
  locations (snd (run (loadDarkMode parse_other get_fault) w)) = locations w.
Proof.
  destruct w as [sw ld loc th st d con al]. destruct get_fault as [e |]; cbn;
    [reflexivity |].
  destruct (st !! "darkMode") as [text |]; cbn; [| reflexivity].
  destruct (JSON_parse parse_other text) as [e | v]; reflexivity.
Qed.

Lemma onToggleSwitch_keeps_locations (v : JSValue) (set_fault : option Error) (w : World) :
  locations (snd (run (onToggleSwitch v set_fault) w)) = locations w.
Proof.
  destruct w as [sw ld loc th st d con al]. destruct set_fault as [e |]; reflexivity.
Qed.

Lemma published_ok_inserted (w w' : World) (t : Table) (lat lon : float) :
  published_ok w ->
  tables (db w) !! "locations" = Some t ->
  db w' = {| tables := <["locations" := table_insert t lat lon]> (tables (db w)); txn := None |} ->
  locations w' = locations w ->
  published_ok w'.
Proof.
  intros Hp Ht Hdb Hloc l Hl. rewrite Hloc in Hl.
  destruct (Hp l Hl) as (t0 & later & Ht0 & Hrows).
  assert (t0 = t) as -> by congruence.
  exists (table_insert t lat lon),
    (later ++ [ {| id := last_rowid t + 1;
                   latitude := sql_real lat; longitude := sql_real lon |} ])%list.
  split; [rewrite Hdb; cbn; apply lookup_insert_eq |].
  unfold table_insert. cbn [rows]. rewrite Hrows, <- app_assoc. reflexivity.
Qed.

Lemma published_ok_all (w' : World) (t : Table) :
  tables (db w') !! "locations" = Some t ->
  locations w' = Some (rows t) ->
  published_ok w'.
Proof.
  intros Ht Hloc l Hl. rewrite Hloc in Hl. injection Hl as <-.
  exists t, []. split; [exact Ht | rewrite app_nil_r; reflexivity].
Qed.

Lemma operate_published (w : World) (op : Operation) :
  store_ok (db w) -> published_ok w -> published_ok (operate w op).
Proof.
  intros Hok Hp. pose proof Hok as [Htxn Hrows].
  destruct op as [f | f lat lon | f | env | parse_other get_fault | set_fault];
    cbn [operate].
  - pose proof (createTable_summary f w Htxn) as H.
    pose proof (createTable_keeps_locations f w) as Hloc.
    destruct (run (createTable f) w) as [[e | v] w']; cbn [snd] in *.
    + destruct H as (_ & Hdb). intros l Hl. rewrite Hloc in Hl. rewrite Hdb. exact (Hp l Hl).
    + destruct H as (_ & _ & _ & Htb). intros l Hl. rewrite Hloc in Hl.
      destruct (Hp l Hl) as (t & later & Ht & Hr). rewrite Ht in Htb.
      exists t, later. rewrite Htb. split; assumption.
  - pose proof (saveLocation_summary f lat lon w Htxn) as H.
    destruct (run (saveLocation f lat lon) w) as [[e | v] w']; cbn [snd].
    + destruct H as (Hloc & _ & _ & Hdb & _). intros l Hl. rewrite Hloc in Hl. rewrite Hdb.
      apply Hp; exact Hl.
    + destruct H as (Hloc & _ & _ & _ & t & Ht & _ & Hdb & _).
      apply (published_ok_inserted w w' t lat lon); assumption.
  - pose proof (loadLocations_summary f w Htxn) as H.
    destruct (run (loadLocations f) w) as [[e | v] w']; cbn [snd].
    + destruct H as (Hdb & _ & _ & Hloc & _). intros l Hl. rewrite Hloc in Hl. rewrite Hdb.
      apply Hp; exact Hl.
    + destruct H as (Hdb & _ & _ & _ & t & Ht & Hloc & _).
      rewrite (store_ok_scan (db w) t Hok Ht) in Hloc.
      apply (published_ok_all w' t); [rewrite Hdb; exact Ht | exact Hloc].
  - pose proof (getLocation_summary (isLoading w) env w) as H.
    destruct (run (getLocation (isLoading w) env) w) as [o w']; cbn [snd].
    destruct H as (_ & _ & H).
    destruct (capture_failure env w) as [p |].
    + destruct H as (Hloc & _ & Hearly & Hlate).
      destruct p;
        try (destruct Hearly as (_ & Hdb & _); [discriminate |];
             intros l Hl; rewrite Hloc in Hl; rewrite (Hdb Htxn); apply Hp; exact Hl).
      destruct (Hlate eq_refl) as (t & c & _ & _ & Ht & Hdb).
      apply (published_ok_inserted w w' t (coords_latitude c) (coords_longitude c)); assumption.
    + destruct H as (t & c & _ & _ & Ht & Hdb & Hloc & _).
      rewrite table_scan_insert, (store_ok_scan (db w) t Hok Ht) in Hloc.
      apply (published_ok_all w' (table_insert t (coords_latitude c) (coords_longitude c)));
        [rewrite Hdb; cbn; apply lookup_insert_eq | exact Hloc].
  - intros l Hl. rewrite loadDarkMode_keeps_locations in Hl. rewrite loadDarkMode_keeps_store.
    apply Hp; exact Hl.
  - intros l Hl. rewrite onToggleSwitch_keeps_locations in Hl. rewrite onToggleSwitch_keeps_store.
    apply Hp; exact Hl.
Qed.

Lemma reachable_published_ok (w : World) : reachable w -> store_ok (db w) /\ published_ok w.
Proof.
  intros [ops ->]. induction ops as [| op ops IH] using rev_ind.
  - split; [apply store_ok_initial |]. intros l Hl. discriminate Hl.
  - rewrite foldl_app. cbn. destruct IH as [Hok Hp].
    split; [apply operate_ok; exact Hok | apply operate_published; assumption].
Qed.

Lemma ids_upto_prefix (l later : list Row) :
  map id (l ++ later) = ids_upto (length (l ++ later)) -> map id l = ids_upto (length l).
Proof.
  unfold ids_upto. rewrite map_app, length_app, seq_app, map_app.
  intros H. apply app_inj_1 in H; [apply H |].
  rewrite !length_map, length_seq. reflexivity.
Qed.

(** X16. In every world the application reaches, a published list is a
    beginning of the stored rows: every record on the screen is in the
    store with the same id and coordinates, in the same order, the records
    missing from the screen are the latest ones, and the ids on the screen
    are 1, 2, ... without gap. *)
Theorem published_list_is_prefix_of_store (w : World) (l : list Row) :
  reachable w ->
  locations w = Some l ->
  exists later,
    stored_rows (db w) = Some (l ++ later)%list /\
    map id l = ids_upto (length l).
Proof.
  intros Hr Hl. destruct (reachable_published_ok w Hr) as [Hstore Hp].
  destruct (Hp l Hl) as (t & later & Ht & Hrows).
  exists later. unfold stored_rows. rewrite Ht. cbn.
  rewrite (store_ok_scan (db w) t Hstore Ht), Hrows.
  split; [reflexivity |].
  destruct Hstore as [_ Hok].
  destruct (Hok t Ht) as [Hids _]. rewrite Hrows in Hids.
  apply (ids_upto_prefix l later). exact Hids.
Qed.

Lemma Number_toString_inj (n m : Z) : Number_toString n = Number_toString m -> n = m.
Proof.
  unfold Number_toString. intros H.
  assert (Hnn : forall z, Z.to_int z <> Decimal.Pos Decimal.Nil /\ Z.to_int z <> Decimal.Neg Decimal.Nil).
  { intros [| p | p]; cbn; split; try discriminate.
    - intros [= Hp]. exact (DecimalPos.Unsigned.to_uint_nonnil p Hp).
    - intros [= Hp]. exact (DecimalPos.Unsigned.to_uint_nonnil p Hp). }
  pose proof (DecimalString.NilZero.isi (Z.to_int n) (proj1 (Hnn n)) (proj2 (Hnn n))) as Hn.
  pose proof (DecimalString.NilZero.isi (Z.to_int m) (proj1 (Hnn m)) (proj2 (Hnn m))) as Hm.
  rewrite H in Hn. rewrite Hn in Hm. injection Hm as Hm.
  rewrite <- (DecimalZ.of_to n), <- (DecimalZ.of_to m), Hm. reflexivity.
Qed.

(** X17. In every world the application reaches, the keys that
    [keyExtractor] gives the items of the published list are pairwise
    distinct, and the item at position [k] (from 0) has the key [k + 1] and
    the title ['Localização ' k+1], as long as the list has no more items
    than there are safe integers. *)
Theorem list_keys_are_distinct (w : World) (l : list Row) :
  reachable w ->
  locations w = Some l ->
  Z.of_nat (length l) <= MAX_SAFE_INTEGER ->
  List.NoDup (map keyExtractor l) /\
  forall (k : nat) (item : Row),
    l !! k = Some item ->
    keyExtractor item = Number_toString (Z.of_nat (S k)) /\
    item_title item = "Localização " ++ Number_toString (Z.of_nat (S k)).
Proof.
  intros Hr Hl _. destruct (reachable_published_ok w Hr) as [[_ Hok] Hp].
  destruct (Hp l Hl) as (t & later & Ht & Hrows).
  destruct (Hok t Ht) as [Hids _]. rewrite Hrows in Hids.
  apply ids_upto_prefix in Hids.
  assert (Hk : forall (k : nat) (item : Row), l !! k = Some item -> id item = Z.of_nat (S k)).
  { intros k item Hitem.
    assert (H : map id l !! k = Some (id item)).
    { change (map id l) with (id <$> l). rewrite list_lookup_fmap, Hitem. reflexivity. }
    rewrite Hids in H. unfold ids_upto in H.
    change (map Z.of_nat (seq 1 (length l))) with (Z.of_nat <$> seq 1 (length l)) in H.
    rewrite list_lookup_fmap in H.
    destruct (seq 1 (length l) !! k) as [i |] eqn:Hi; [| discriminate H].
    apply lookup_seq in Hi. destruct Hi as [-> _]. cbn in H. congruence. }
  split.
  - unfold keyExtractor. rewrite <- (map_map id Number_toString), Hids.
    apply Finite.Injective_map_NoDup; [intros n m; apply Number_toString_inj |].
    unfold ids_upto. apply Finite.Injective_map_NoDup; [intros n m; apply Nat2Z.inj |].
    apply List.seq_NoDup.
  - intros k item Hitem. unfold item_title, keyExtractor. rewrite (Hk k item Hitem).
    split; reflexivity.
Qed.

(** ** The theorems at work *)

Lemma startup_any_order_witness :
  after_startup (Some true) None
    (loop_run
       (initializeData reject_other no_faults None no_faults
          (idle (startup_World (Some true) None)))
       (map completes [0; 0; 0; 1; 1; 1; 1]%nat)).
Proof.
  apply (startup_any_order reject_other (Some true) None [0; 0; 0; 1; 1; 1; 1]%nat).
  vm_compute. reflexivity.
Defined.

Lemma not_granted_stops_at_permission_witness :
  permission undetermined = inr "undetermined" /\
  String.eqb "undetermined" "granted" = false /\
  let (o, w') := run (getLocation false undetermined) installed_World in
  o = inr JUndefined /\
  alerts w' = (alerts installed_World ++ [permission_alert])%list /\
  console w' =
    (console installed_World ++ start_entries ++
       [ console_log_entry "Status da permissão:" [LString "undetermined"];
         finishing_entry false ])%list /\
  db w' = db installed_World /\ locations w' = locations installed_World /\
  isLoading w' = false.
Proof.
  split; [reflexivity |]. split; [reflexivity |].
  apply (not_granted_stops_at_permission false undetermined installed_World "undetermined").
  - reflexivity.
  - intros H. discriminate H.
Defined.

Lemma provider_error_is_reported_witness :
  permission position_times_out = inr "granted" /\
  position position_times_out = inl timeout_error /\
  let (o, w') := run (getLocation false position_times_out) installed_World in
  o = inr JUndefined /\
  alerts w' = (alerts installed_World ++ [error_alert timeout_error])%list /\
  db w' = db installed_World /\ locations w' = locations installed_World /\
  isLoading w' = false.
Proof.
  split; [reflexivity |]. split; [reflexivity |].
  apply (provider_error_is_reported false position_times_out installed_World timeout_error).
  right. split; reflexivity.
Defined.


Lemma without_table_everything_fails_witness :
  txn (db initial_World) = None /\
  tables (db initial_World) !! "locations" = None /\
  (let (o, w') := run (getLocation false (granted_at 37.422 (-122.084))) initial_World in
   alerts w' =
     (alerts initial_World ++ [error_alert (SQLiteError "no such table: locations")])%list /\
   db w' = db initial_World /\ locations w' = locations initial_World).
Proof.
  split; [reflexivity |]. split; [reflexivity |].
  apply (without_table_everything_fails false 37.422 (-122.084) initial_World); reflexivity.
Defined.

Lemma read_your_write_witness :
  fst (run (saveLocation no_faults 37.422 (-122.084)) installed_World) = inr JUndefined /\
  exists before r,
    stored_rows (db installed_World) = Some before /\
    latitude r = Some 37.422%float /\ longitude r = Some (-122.084)%float /\
    fst (run (loadLocations no_faults)
           (snd (run (saveLocation no_faults 37.422 (-122.084)) installed_World)))
      = inr JUndefined /\
    locations (snd (run (loadLocations no_faults)
                      (snd (run (saveLocation no_faults 37.422 (-122.084)) installed_World))))
      = Some (before ++ [r])%list.
Proof.
  split; [vm_compute; reflexivity |].
  destruct (read_your_write no_faults 37.422 (-122.084) installed_World)
    as (before & r & H1 & H2 & H3 & H4 & H5 & _); [vm_compute; reflexivity |].
  exists before, r. repeat split; assumption.
Defined.

Lemma loadDarkMode_installs_parsed_value_witness :
  storage dark_preference_World !! "darkMode" = Some "true" /\
  JSON_parse reject_other "true" = inr (JBool true) /\
  let (o, w') := run (loadDarkMode reject_other None)
                     dark_preference_World in
  o = inr JUndefined /\
  isSwitchOn w' = JBool true /\
  console w' = console dark_preference_World /\
  theme (themeEffect w') = (if ToBoolean (JBool true) then myColorsDark else myColors) /\
  isSwitchOn (snd (run (onToggleSwitch (isSwitchOn w') None) w'))
    = JBool (negb (ToBoolean (JBool true))).
Proof.
  split; [vm_compute; reflexivity |]. split; [reflexivity |].
  apply (loadDarkMode_installs_parsed_value reject_other "true" (JBool true)
           dark_preference_World);
    vm_compute; reflexivity.
Defined.

Lemma published_list_is_prefix_of_store_witness :
  reachable one_capture_World /\
  locations one_capture_World
    = Some [ {| id := 1; latitude := Some 37.422%float;
                 longitude := Some (-122.084)%float |} ] /\
  exists later,
    stored_rows (db one_capture_World)
      = Some ([ {| id := 1; latitude := Some 37.422%float;
                  longitude := Some (-122.084)%float |} ] ++ later)%list /\
    map id [ {| id := 1; latitude := Some 37.422%float;
                longitude := Some (-122.084)%float |} ] = ids_upto 1.
Proof.
  assert (Hr : reachable one_capture_World) by (eexists; reflexivity).
  assert (Hl : locations one_capture_World
               = Some [ {| id := 1; latitude := Some 37.422%float;
                 longitude := Some (-122.084)%float |} ])
    by (vm_compute; reflexivity).
  split; [exact Hr |]. split; [exact Hl |].
  apply (published_list_is_prefix_of_store one_capture_World _ Hr Hl).
Defined.

Lemma list_keys_are_distinct_witness :
  reachable one_capture_World /\
  locations one_capture_World
    = Some [ {| id := 1; latitude := Some 37.422%float;
                 longitude := Some (-122.084)%float |} ] /\
  List.NoDup (map keyExtractor [ {| id := 1; latitude := Some 37.422%float;
                                    longitude := Some (-122.084)%float |} ]) /\
  keyExtractor {| id := 1; latitude := Some 37.422%float;
                  longitude := Some (-122.084)%float |} = "1" /\
  item_title {| id := 1; latitude := Some 37.422%float;
                longitude := Some (-122.084)%float |} = "Localização 1".
Proof.
  assert (Hr : reachable one_capture_World) by (eexists; reflexivity).
  assert (Hl : locations one_capture_World
               = Some [ {| id := 1; latitude := Some 37.422%float;
                 longitude := Some (-122.084)%float |} ])
    by (vm_compute; reflexivity).
  split; [exact Hr |]. split; [exact Hl |].
  destruct (list_keys_are_distinct one_capture_World _ Hr Hl) as [Hnd Hk];
    [vm_compute; discriminate |].
  split; [exact Hnd |].
  exact (Hk 0%nat _ eq_refl).
Defined.

Lemma createTable_failure_is_only_logged_witness :
  txn (db initial_World) = None /\
  fst (run (createTable fails_at_commit) initial_World) = inl busy_error /\
  let w' := snd (run (createTable fails_at_commit) initial_World) in
  db w' = db initial_World /\ locations w' = locations initial_World /\
  alerts w' = alerts initial_World /\ isLoading w' = isLoading initial_World /\
  console w' =
    (console initial_World ++
       [console_error_entry "Erro ao criar tabela:" [LError busy_error]])%list.
Proof.
  split; [reflexivity |]. split; [vm_compute; reflexivity |].
  apply (createTable_failure_is_only_logged fails_at_commit initial_World busy_error);
    vm_compute; reflexivity.
Defined.

